(** * SenderQueue: the per-session coalescing send queue (wsd/SenderQueue.hpp)

    A shallow embedding of [SenderQueue<Item>] and the proofs of its
    enqueue / dequeue / deduplicate / dumpState properties.

    [SenderQueue] is a class template: it only uses [Item] through the
    member functions it calls on it ([firstToken], [firstLine],
    [firstTokenMatches], [contains], [jsonString], [getHash], [setHash],
    [data], [size], [isBinary], [id]).  That duck-typed interface is the
    class [MessageOps] below.  [TileDesc], the JSON parser, [COOLProtocol]
    and [SigUtil] live in other files; they are the class [Externals] and
    the [TerminationFlag] field of the state.

    C++ exceptions are modelled by the [result] type: a call either
    [Returns] a value or [Throws].  The queue lives in a state that
    survives a throw (the mutex is released by RAII, the deque stays).

    Every member function holds [_mutex] while it touches [_queue], so the
    calls of concurrent producers and of the consumer take effect one after
    the other: a history of the queue is a sequence of calls ([serve_all]). *)

From stdpp Require Import base list sets strings functions pretty.
From Stdlib Require Import ZArith Lia Ascii.

Set Default Proof Using "Type*".
Open Scope string_scope.
Open Scope list_scope.

(** ** Results of calls that may throw *)

Inductive result (E A : Type) : Type :=
| Returns (a : A)
| Throws (e : E).
Arguments Returns {E A} a.
Arguments Throws {E A} e.

Definition returned {E A} (r : result E A) : Prop :=
  match r with Returns _ => True | Throws _ => False end.

(** ** The interface the template requires of [Item] *)

(** [Item] is a (shared) pointer to a message: equality on [Item] is pointer
    identity, the accessors read the immutable parts of the pointee.  The
    one mutable member, the cached hash behind [getHash]/[setHash], is kept
    in the state (field [hashOf]) so that a message queued twice shares it. *)
Class MessageOps (Item : Type) := {
  firstToken : Item -> string;
  firstLine : Item -> string;
  contains : Item -> string -> bool;
  jsonString : Item -> string;
  data : Item -> string;
  (** [item->size()], the number of payload bytes *)
  msgSize : Item -> nat;
  isBinary : Item -> bool;
  id : Item -> string;
}.

(** Collaborators that are declared in headers outside this file. *)
Class Externals (exn TileDesc : Type) := {
  (** [TileDesc::parse(const std::string&)]: returns a descriptor or throws. *)
  TileDesc_parse : string -> result exn TileDesc;
  (** [TileDesc::equalityHash()], a [uint32_t]. *)
  equalityHash : TileDesc -> Z;
  (** [TileDesc::operator==]; [a != b] is its negation. *)
  TileDesc_eq : TileDesc -> TileDesc -> bool;
  (** [Poco::JSON::Parser::parse(msg)], then [extract<Object::Ptr>()], then
      [get("viewId").toString()]: returns the view id or throws. *)
  json_viewId : string -> result exn string;
  (** [COOLProtocol::getAbbreviatedMessage(data, length)]. *)
  getAbbreviatedMessage : string -> nat -> string;
}.

(** The double quote character, and the tag searched in progress messages
    ([setvalueTag] in the source): the key id, a colon and the value
    setvalue, key and value each between double quotes. *)
Definition dquote : string := String (Ascii.ascii_of_nat 34) EmptyString.
Definition setvalueTag : string :=
  dquote +:+ "id" +:+ dquote +:+ ":" +:+ dquote +:+ "setvalue" +:+ dquote.

Section SenderQueue.
Context {Item : Type} `{EqDecision Item} `{MessageOps Item}.
Context {exn TileDesc : Type} `{Externals exn TileDesc}.

(** Modelled from the spec: [Message::firstTokenMatches] (Message.hpp is
    not among the sources) compares the command token with its argument
    ("same commandToken"). *)
Definition firstTokenMatches (cur : Item) (target : string) : bool :=
  bool_decide (firstToken cur = target).

(** ** State *)

(** [TerminationFlag] is the process-wide flag read by
    [SigUtil::getTerminationFlag()]; [hashOf] holds the [_hash] member of
    every message object; [_queue] is the [std::deque<Item>]. *)
Record state := mkState {
  TerminationFlag : bool;
  hashOf : Item -> Z;
  _queue : list Item;
}.

(** ** A state monad with exceptions *)

Definition M (A : Type) : Type := state -> state * result exn A.

Definition ret {A} (a : A) : M A := fun s => (s, Returns a).

Definition bind {A B} (m : M A) (k : A -> M B) : M B :=
  fun s => match m s with
           | (s', Returns a) => k a s'
           | (s', Throws e) => (s', Throws e)
           end.

(** A call into a collaborator that may throw. *)
Definition call {A} (r : result exn A) : M A := fun s => (s, r).

Definition getTerminationFlag : M bool := fun s => (s, Returns (TerminationFlag s)).
Definition getHash (cur : Item) : M Z := fun s => (s, Returns (hashOf s cur)).
Definition setHash (item : Item) (h : Z) : M unit :=
  fun s => (mkState (TerminationFlag s) (<[item := h]> (hashOf s)) (_queue s),
            Returns tt).
Definition get_queue : M (list Item) := fun s => (s, Returns (_queue s)).
Definition put_queue (q : list Item) : M unit :=
  fun s => (mkState (TerminationFlag s) (hashOf s) q, Returns tt).

End SenderQueue.

Arguments state Item : clear implicits.
Arguments M Item exn A : clear implicits.

Declare Scope sq_scope.
Delimit Scope sq_scope with sq.
Notation "'do' x <- m ; k" := (bind m (fun x => k))
  (at level 10, x name, m at level 100, k at level 200) : sq_scope.
Notation "m ;; k" := (bind m (fun _ => k))
  (at level 100, k at level 200, right associativity) : sq_scope.
Open Scope sq_scope.

Section Operations.
Context {Item : Type} `{EqDecision Item} `{MessageOps Item}.
Context {exn TileDesc : Type} `{Externals exn TileDesc}.

Local Abbreviation M := (M Item exn).

(** ** std::find_if and deque::erase *)

(** [std::find_if(first, last, pred)]: the predicate is run on the elements
    in order; the position of the first element it accepts is returned,
    [None] standing for [_queue.end()].  A throwing predicate stops the
    search. *)
Fixpoint find_if_from (pred : Item -> M bool) (l : list Item) (i : nat)
  : M (option nat) :=
  match l with
  | [] => ret None
  | cur :: rest =>
      do b <- pred cur;
      if b : bool then ret (Some i) else find_if_from pred rest (S i)
  end.

Definition find_if (pred : Item -> M bool) : M (option nat) :=
  do q <- get_queue; find_if_from pred q 0.

(** [if (pos != _queue.end()) _queue.erase(pos);] *)
Definition erase_if_found (pos : option nat) : M unit :=
  match pos with
  | Some i => do q <- get_queue; put_queue (delete i q)
  | None => ret tt
  end.

(** ** deduplicate *)

Definition deduplicate (item : Item) : M bool :=
  let command := firstToken item in
  if decide (command = "tile:") then
    do newTile <- call (TileDesc_parse (firstLine item));
    let newTilePosHash := equalityHash newTile in
    setHash item newTilePosHash ;;
    do pos <- find_if (fun cur =>
        if negb (firstTokenMatches cur "tile:") then ret false
        else
          do h <- getHash cur;
          if negb (newTilePosHash =? h)%Z then ret false
          else
            do curTile <- call (TileDesc_parse (firstLine cur));
            if negb (TileDesc_eq newTile curTile) then ret false
            else ret true);
    erase_if_found pos ;;
    ret true
  else if decide (command = "invalidatecursor:" \/ command = "setpart:") then
    do pos <- find_if (fun cur => ret (firstTokenMatches cur command));
    erase_if_found pos ;;
    ret true
  else if decide (command = "progress:") then
    (if contains item setvalueTag then
       do pos <- find_if (fun cur =>
           ret (firstTokenMatches cur command && contains cur setvalueTag));
       erase_if_found pos
     else ret tt) ;;
    ret true
  else if decide (command = "invalidateviewcursor:") then
    let newMsg := jsonString item in
    do viewId <- call (json_viewId newMsg);
    do pos <- find_if (fun cur =>
        if firstTokenMatches cur command then
          let msg := jsonString cur in
          do curViewId <- call (json_viewId msg);
          ret (bool_decide (viewId = curViewId))
        else ret false);
    erase_if_found pos ;;
    ret true
  else ret true.

(** ** enqueue, dequeue, size *)

Definition push_back (item : Item) : M unit :=
  do q <- get_queue; put_queue (q ++ [item]).

(** [_queue.size()] *)
Definition queue_size : M nat :=
  do q <- get_queue; ret (length q).

(** [if (!getTerminationFlag() && deduplicate(item)) push_back(item);
     return _queue.size();] *)
Definition enqueue (item : Item) : M nat :=
  do flag <- getTerminationFlag;
  (if negb flag then
     do fresh <- deduplicate item;
     if fresh : bool then push_back item else ret tt
   else ret tt) ;;
  queue_size.

(** [bool dequeue(Item& item)]: [Some front] stands for "returns true and
    stores the front in [item]", [None] for "returns false". *)
Definition dequeue : M (option Item) :=
  do flag <- getTerminationFlag;
  if flag : bool then ret None
  else
    do q <- get_queue;
    match q with
    | front :: rest => put_queue rest ;; ret (Some front)
    | [] => ret None
    end.

Definition size : M nat := queue_size.

(** ** dumpState *)

(** The lines written to the stream.  [os << ...] appends to the caller's
    stream; the report is kept as a list of lines and rendered to text by
    [render]. *)
Inductive report_line : Type :=
| QueueItems (queueSize : nat)
| RepeatsLine (repeats : nat)
| TypeLine (binary : bool) (ident : string) (itemStr : string)
| QueueBytes (totalSize : nat).

(** The locals of the loop in [dumpState]. *)
Record dump_locals := mkDump {
  os : list report_line;
  repeats : nat;
  lastStr : string;
  totalSize : nat;
}.

(** One iteration of [for (const Item &item : _queue)]. *)
Definition dump_item (st : dump_locals) (item : Item) : dump_locals :=
  let itemStr := getAbbreviatedMessage (data item) (msgSize item) in
  let '(os1, repeats1) :=
    if bool_decide (lastStr st = itemStr) && negb (isBinary item)
    then (os st, S (repeats st))
    else if (0 <? repeats st)%nat
         then (os st ++ [RepeatsLine (repeats st)], 0%nat)
         else (os st, repeats st) in
  let os2 :=
    if (repeats1 =? 0)%nat
    then os1 ++ [TypeLine (isBinary item) (id item) itemStr]
    else os1 in
  mkDump os2 repeats1 itemStr (totalSize st + msgSize item).

Definition dump_report (q : list Item) : list report_line :=
  let st0 := mkDump [QueueItems (length q)] 0 "" 0 in
  let st := foldl dump_item st0 q in
  let os' :=
    if (0 <? repeats st)%nat then os st ++ [RepeatsLine (repeats st)] else os st in
  os' ++ [QueueBytes (totalSize st)].

Definition tab : string := String (Ascii.ascii_of_nat 9) EmptyString.
Definition newline : string := String (Ascii.ascii_of_nat 10) EmptyString.

Definition render_line (l : report_line) : string :=
  match l with
  | QueueItems n => tab +:+ tab +:+ "queue items: " +:+ pretty n +:+ newline
  | RepeatsLine n =>
      tab +:+ tab +:+ tab +:+ "<repeats " +:+ pretty n +:+ " times>" +:+ newline
  | TypeLine b i str =>
      tab +:+ tab +:+ tab +:+ "type: " +:+ (if b then "binary" else "text")
      +:+ ": " +:+ i +:+ " - " +:+ str +:+ newline
  | QueueBytes n => tab +:+ tab +:+ "queue size: " +:+ pretty n +:+ " bytes" +:+ newline
  end.

Definition render (ls : list report_line) : string :=
  foldr (fun l acc => render_line l +:+ acc) "" ls.

(** [void dumpState(std::ostream& os)]: returns what was written. *)
Definition dumpState : M string :=
  do q <- get_queue; ret (render (dump_report q)).

(** ** Sequences of calls *)

(** A client of the queue: the calls it makes, and what they return. *)
Inductive request : Type :=
| Enqueue (item : Item)
| Dequeue
| Size.

Inductive reply : Type :=
| QueueLength (n : nat)
| Dequeued (item : option Item).

Definition serve (r : request) : M reply :=
  match r with
  | Enqueue item => do n <- enqueue item; ret (QueueLength n)
  | Dequeue => do item <- dequeue; ret (Dequeued item)
  | Size => do n <- size; ret (QueueLength n)
  end.

(** The calls are made one after the other; an exception ends the run. *)
Fixpoint serve_all (rs : list request) : M (list reply) :=
  match rs with
  | [] => ret []
  | r :: rs' =>
      do a <- serve r;
      do answers <- serve_all rs';
      ret (a :: answers)
  end.

(** The messages handed to [enqueue], and the messages [dequeue] returned. *)
Definition enqueued (rs : list request) : list Item :=
  omap (fun r => match r with Enqueue item => Some item | _ => None end) rs.

Definition delivered (answers : list reply) : list Item :=
  omap (fun a => match a with Dequeued o => o | _ => None end) answers.

End Operations.

Arguments request Item : clear implicits.
Arguments reply Item : clear implicits.

(** * Specification vocabulary

    The notions the properties are stated with: states after an update,
    the predicates the searches of [deduplicate] compute, well-formed
    messages, the dedup table of the specification, the plain FIFO queue
    the coalescing queue is compared with, and the reading of a report. *)

Section Specification.
Context {Item : Type} `{EqDecision Item} `{MessageOps Item}.
Context {exn TileDesc : Type} `{Externals exn TileDesc}.

Local Abbreviation M := (M Item exn).
Local Abbreviation state := (state Item).

(** The queue after [find_if] and [erase] with a predicate that does not
    throw: the first accepted element is gone. *)
Fixpoint remove_first (f : Item -> bool) (l : list Item) : list Item :=
  match l with
  | [] => []
  | x :: rest => if f x then rest else x :: remove_first f rest
  end.

(** The position [find_if] returns for such a predicate, counted from [i]. *)
Fixpoint find_index (f : Item -> bool) (l : list Item) (i : nat) : option nat :=
  match l with
  | [] => None
  | x :: rest => if f x then Some i else find_index f rest (S i)
  end.

(** The state with another queue. *)
Definition with_queue (s : state) (q : list Item) : state :=
  mkState (TerminationFlag s) (hashOf s) q.

(** The state after [setHash]. *)
Definition with_hash (s : state) (item : Item) (h : Z) : state :=
  mkState (TerminationFlag s) (<[item := h]> (hashOf s)) (_queue s).

(** A computation that leaves the state alone, whatever it returns. *)
Definition preserves {A} (m : M A) : Prop := forall s, (m s).1 = s.

(** What the predicates handed to [find_if] compute when they return. *)
Definition tile_match (hs : Item -> Z) (newTile : TileDesc) (cur : Item) : bool :=
  firstTokenMatches cur "tile:" && (equalityHash newTile =? hs cur)%Z &&
  match TileDesc_parse (firstLine cur) with
  | Returns curTile => TileDesc_eq newTile curTile
  | Throws _ => false
  end.

Definition token_match (command : string) (cur : Item) : bool :=
  firstTokenMatches cur command.

Definition progress_match (cur : Item) : bool :=
  firstTokenMatches cur "progress:" && contains cur setvalueTag.

Definition view_match (viewId : string) (cur : Item) : bool :=
  firstTokenMatches cur "invalidateviewcursor:" &&
  match json_viewId (jsonString cur) with
  | Returns curViewId => bool_decide (viewId = curViewId)
  | Throws _ => false
  end.

(** Queued [tile:] messages have a first line that parses, and queued
    [invalidateviewcursor:] messages a payload with a view id: a message
    enters the queue only after [deduplicate] has parsed it. *)
Definition tile_parseable (m : Item) : Prop :=
  firstToken m = "tile:" -> returned (TileDesc_parse (firstLine m)).

Definition view_parseable (m : Item) : Prop :=
  firstToken m = "invalidateviewcursor:" -> returned (json_viewId (jsonString m)).

Definition parseable (m : Item) : Prop := tile_parseable m /\ view_parseable m.

(** A command token without a rule of its own. *)
Definition plain_token (command : string) : Prop :=
  command <> "tile:" /\ command <> "invalidatecursor:" /\ command <> "setpart:"
  /\ command <> "progress:" /\ command <> "invalidateviewcursor:".

(** The dedup table of the specification: [supersedes new old] holds when
    enqueuing [new] makes the queued [old] obsolete. *)
Definition supersedes (new old : Item) : bool :=
  let command := firstToken new in
  if decide (command = "tile:") then
    firstTokenMatches old "tile:" &&
    match TileDesc_parse (firstLine new), TileDesc_parse (firstLine old) with
    | Returns a, Returns b => TileDesc_eq a b
    | _, _ => false
    end
  else if decide (command = "invalidatecursor:" \/ command = "setpart:") then
    firstTokenMatches old command
  else if decide (command = "progress:") then
    contains new setvalueTag && firstTokenMatches old command
    && contains old setvalueTag
  else if decide (command = "invalidateviewcursor:") then
    firstTokenMatches old command &&
    match json_viewId (jsonString new), json_viewId (jsonString old) with
    | Returns a, Returns b => bool_decide (a = b)
    | _, _ => false
    end
  else false.

(** No message of the list supersedes an earlier one. *)
Fixpoint non_interacting (l : list Item) : Prop :=
  match l with
  | [] => True
  | old :: later =>
      Forall (fun new => supersedes new old = false) later /\ non_interacting later
  end.

(** A plain FIFO queue, the reference the coalescing queue is compared
    with: what it answers to a sequence of calls, and what it holds after. *)
Fixpoint fifo_answers (q : list Item) (rs : list (request Item)) : list (reply Item) :=
  match rs with
  | [] => []
  | Enqueue m :: rs' => QueueLength (S (length q)) :: fifo_answers (q ++ [m]) rs'
  | Dequeue :: rs' =>
      match q with
      | front :: rest => Dequeued (Some front) :: fifo_answers rest rs'
      | [] => Dequeued None :: fifo_answers [] rs'
      end
  | Size :: rs' => QueueLength (length q) :: fifo_answers q rs'
  end.

Fixpoint fifo_queue (q : list Item) (rs : list (request Item)) : list Item :=
  match rs with
  | [] => q
  | Enqueue m :: rs' => fifo_queue (q ++ [m]) rs'
  | Dequeue :: rs' => fifo_queue (tail q) rs'
  | Size :: rs' => fifo_queue q rs'
  end.

(** [cur] is a queued tile message for the descriptor [newTile]. *)
Definition same_tile (newTile : TileDesc) (cur : Item) : bool :=
  firstTokenMatches cur "tile:" &&
  match TileDesc_parse (firstLine cur) with
  | Returns curTile => TileDesc_eq newTile curTile
  | Throws _ => false
  end.

(** Every queued tile message carries the hash of its own descriptor:
    [enqueue] stored it before the message was appended. *)
Definition hash_cached (s : state) : Prop :=
  forall cur, cur ∈ _queue s -> firstToken cur = "tile:" ->
    exists curTile,
      TileDesc_parse (firstLine cur) = Returns curTile
      /\ hashOf s cur = equalityHash curTile.

(** [equalityHash] hashes what [operator==] compares. *)
Definition hash_respects_eq : Prop :=
  forall a b : TileDesc, TileDesc_eq a b = true -> equalityHash a = equalityHash b.

(** Two messages carry the same view id. *)
Definition same_view (a b : Item) : bool :=
  match json_viewId (jsonString a), json_viewId (jsonString b) with
  | Returns x, Returns y => bool_decide (x = y)
  | _, _ => false
  end.

(** The messages of a sequence that no later message of the same view
    follows: the latest message of every view, in arrival order. *)
Fixpoint keep_latest (msgs : list Item) : list Item :=
  match msgs with
  | [] => []
  | m :: later =>
      if existsb (same_view m) later then keep_latest later
      else m :: keep_latest later
  end.

Fixpoint distinct_views (q : list Item) : Prop :=
  match q with
  | [] => True
  | x :: rest => Forall (fun y => same_view x y = false) rest /\ distinct_views rest
  end.

(** A well-formed view cursor message. *)
Definition view_message (m : Item) : Prop :=
  firstToken m = "invalidateviewcursor:" /\ returned (json_viewId (jsonString m)).

(** [getAbbreviatedMessage(item->data().data(), item->size())] *)
Definition abbreviation (item : Item) : string :=
  getAbbreviatedMessage (data item) (msgSize item).

(** The listing of a message: type, id, abbreviated content. *)
Definition entry (item : Item) : bool * string * string :=
  (isBinary item, id item, abbreviation item).

(** The per-message lines of a report. *)
Definition type_lines (report : list report_line) : list (bool * string * string) :=
  omap (fun l => match l with
                 | TypeLine b i str => Some (b, i, str)
                 | _ => None
                 end) report.

(** The number of messages the repeats markers of a report stand for. *)
Definition repeats_total (report : list report_line) : nat :=
  foldr (fun l n => match l with RepeatsLine k => (k + n)%nat | _ => n end) 0%nat report.

(** The abbreviated content of the last message of a queue: what the loop
    compares the next message with ([lastStr], empty at the start). *)
Definition last_abbreviation (q : list Item) : string :=
  match last q with
  | Some item => abbreviation item
  | None => ""
  end.

(** Is [item] folded into a repeats marker when it follows [lastStr]? *)
Definition collapsed (lastStr : string) (item : Item) : bool :=
  bool_decide (lastStr = abbreviation item) && negb (isBinary item).

(** The lines of a report between the message count and the byte total. *)
Definition report_body (q : list Item) : list report_line :=
  removelast (tail (dump_report q)).

(** One more message counted by the repeats marker that ends the lines, or
    by a new marker when the lines do not end with one. *)
Definition count_repeat (lines : list report_line) : list report_line :=
  match last lines with
  | Some (RepeatsLine k) => removelast lines ++ [RepeatsLine (S k)]
  | _ => lines ++ [RepeatsLine 1]
  end.

(** The marker the loop still has to write for its [repeats] counter. *)
Definition pending_marker (repeats : nat) : list report_line :=
  if (0 <? repeats)%nat then [RepeatsLine repeats] else [].

(** The lines written so far do not end with a repeats marker. *)
Definition no_trailing_marker (lines : list report_line) : Prop :=
  match last lines with
  | Some (RepeatsLine _) => False
  | _ => True
  end.

End Specification.

(** * A concrete message type

    [Message], [TileDesc] and the JSON reader are not part of
    SenderQueue.hpp.  The module below gives one implementation of the two
    interfaces over plain text payloads, so that the operations above can be
    run on concrete queues.  The theorems further down are proved for every
    implementation of the interfaces, this one included. *)
Module Wire.

Inductive exn : Type := BadArgumentException | JSONException.

Record Message := mkMessage {
  m_id : string;
  m_binary : bool;
  m_data : string;
}.

#[export] Instance Message_eq_dec : EqDecision Message.
Proof. solve_decision. Defined.

(** The characters of [s] before the first [c]. *)
Fixpoint take_until (c : ascii) (s : string) : string :=
  match s with
  | EmptyString => EmptyString
  | String a s' => if Ascii.eqb a c then EmptyString else String a (take_until c s')
  end.

(** [s] without its first [n] characters. *)
Definition string_drop (n : nat) (s : string) : string :=
  String.substring n (String.length s - n) s.

(** Modelled from the spec: [firstLine] is the first line of the payload. *)
Definition first_line (s : string) : string :=
  take_until (Ascii.ascii_of_nat 10) s.

(** Modelled from the spec: [commandToken] is the first whitespace-delimited
    token of the payload's first line. *)
Definition first_token (s : string) : string :=
  take_until " "%char (first_line s).

(** Modelled from the spec: [contains(substring)] over the payload. *)
Fixpoint contains_str (needle hay : string) : bool :=
  String.prefix needle hay ||
  match hay with
  | EmptyString => false
  | String _ hay' => contains_str needle hay'
  end.

(** What follows the first occurrence of [needle] in [s]. *)
Fixpoint after (needle s : string) : option string :=
  if String.prefix needle s then Some (string_drop (String.length needle) s)
  else match s with
       | EmptyString => None
       | String _ s' => after needle s'
       end.

(** The tokens of [s] between occurrences of [c]. *)
Fixpoint split_on (c : ascii) (s : string) : list string :=
  match s with
  | EmptyString => [EmptyString]
  | String a s' =>
      if Ascii.eqb a c then EmptyString :: split_on c s'
      else match split_on c s' with
           | t :: ts => String a t :: ts
           | [] => [String a EmptyString]
           end
  end.

(** Decimal numbers. *)
Definition digit (a : ascii) : option N :=
  let n := Ascii.N_of_ascii a in
  if ((48 <=? n) && (n <=? 57))%N then Some (n - 48)%N else None.

Fixpoint parse_digits (acc : N) (s : string) : option N :=
  match s with
  | EmptyString => Some acc
  | String a s' =>
      match digit a with
      | Some d => parse_digits (acc * 10 + d)%N s'
      | None => None
      end
  end.

Definition parse_N (s : string) : option N :=
  match s with
  | EmptyString => None
  | _ => parse_digits 0%N s
  end.

(** The number after [key=] in the first token that starts so. *)
Fixpoint field (key : string) (toks : list string) : option N :=
  match toks with
  | [] => None
  | t :: ts =>
      if String.prefix (key +:+ "=") t
      then parse_N (string_drop (String.length key + 1) t)
      else field key ts
  end.

(** Modelled from the spec: a tile descriptor is structured metadata
    identifying a renderable region (position, zoom, part) carried in a
    message's first line. *)
Record TileDesc := mkTileDesc {
  part : N;
  tilePosX : N;
  tilePosY : N;
  tileWidth : N;
}.

#[export] Instance TileDesc_eq_dec : EqDecision TileDesc.
Proof. solve_decision. Defined.

(** A descriptor is read from the [key=number] tokens of the line; a
    missing key or a value that is not a number is an error. *)
Definition parse (line : string) : result exn TileDesc :=
  let toks := split_on " "%char line in
  match field "part" toks, field "tileposx" toks,
        field "tileposy" toks, field "tilewidth" toks with
  | Some p, Some x, Some y, Some w => Returns (mkTileDesc p x y w)
  | _, _, _, _ => Throws BadArgumentException
  end.

(** Modelled from the spec: the position-identity hash is a cheap, pure
    hash of a tile descriptor, 32 bits wide. *)
Definition hash32 (d : TileDesc) : Z :=
  (Z.of_N (((part d * 31 + tilePosX d) * 31 + tilePosY d) * 31 + tileWidth d)
   mod 2 ^ 32)%Z.

(** Modelled from the spec: [jsonField("viewId")] parses the payload as a
    structured document and extracts the named string field. *)
Definition viewId_of (json : string) : result exn string :=
  match after (dquote +:+ "viewId" +:+ dquote +:+ ":" +:+ dquote) json with
  | Some rest =>
      if contains_str dquote rest
      then Returns (take_until (Ascii.ascii_of_nat 34) rest)
      else Throws JSONException
  | None => Throws JSONException
  end.

(** The first line of the payload, with an ellipsis when more follows. *)
Definition abbreviated (payload : string) (len : nat) : string :=
  let l := first_line payload in
  if (String.length l <? len - 1)%nat then l +:+ "..." else l.

#[export] Instance message_ops : MessageOps Message := {|
  firstToken m := first_token (m_data m);
  firstLine m := first_line (m_data m);
  contains m sub := contains_str sub (m_data m);
  jsonString m := string_drop (String.length (first_token (m_data m))) (m_data m);
  data := m_data;
  msgSize m := String.length (m_data m);
  isBinary := m_binary;
  id := m_id;
|}.

#[export] Instance externals : Externals exn TileDesc := {|
  TileDesc_parse := parse;
  equalityHash := hash32;
  TileDesc_eq a b := bool_decide (a = b);
  json_viewId := viewId_of;
  getAbbreviatedMessage := abbreviated;
|}.

(** Text and binary messages. *)
Definition text (i payload : string) : Message := mkMessage i false payload.
Definition binary (i payload : string) : Message := mkMessage i true payload.

(** An empty queue, termination flag clear, no hash cached. *)
Definition empty_queue : state Message := mkState false (fun _ => 0%Z) [].

Definition nl : string := String (Ascii.ascii_of_nat 10) EmptyString.

Definition tileA1 : Message :=
  binary "1" ("tile: part=0 tileposx=0 tileposy=31 tilewidth=3840" +:+ nl +:+ "PNG-a").
Definition tileA2 : Message :=
  binary "2" ("tile: part=0 tileposx=0 tileposy=31 tilewidth=3840" +:+ nl +:+ "PNG-b").
(** Same position hash as [tileA1], different descriptor. *)
Definition tileB : Message :=
  binary "3" ("tile: part=0 tileposx=1 tileposy=0 tilewidth=3840" +:+ nl +:+ "PNG-c").
Definition tileBad : Message :=
  binary "4" ("tile: part=0 tileposx=zero" +:+ nl +:+ "PNG-d").

Definition viewcursor (i view rect : string) : Message :=
  text i ("invalidateviewcursor: {" +:+ dquote +:+ "viewId" +:+ dquote +:+ ":"
          +:+ dquote +:+ view +:+ dquote +:+ "," +:+ dquote +:+ "rectangle"
          +:+ dquote +:+ ":" +:+ dquote +:+ rect +:+ dquote +:+ "}").
Definition viewcursorBad : Message := text "9" "invalidateviewcursor: {oops".

Definition progress_setvalue (i v : string) : Message :=
  text i ("progress: {" +:+ setvalueTag +:+ "," +:+ dquote +:+ "value"
          +:+ dquote +:+ ":" +:+ v +:+ "}").
Definition progress_finish (i : string) : Message :=
  text i ("progress: {" +:+ dquote +:+ "id" +:+ dquote +:+ ":" +:+ dquote
          +:+ "finish" +:+ dquote +:+ "}").

(** Queues reached from the empty one. *)
Definition one_tile : state Message :=
  (serve_all [Enqueue tileA1] empty_queue).1.
Definition two_tiles : state Message :=
  (serve_all [Enqueue tileA1; Enqueue tileB] empty_queue).1.

(** A queue at shutdown: two tiles pending, the termination flag set. *)
Definition shut_down : state Message :=
  mkState true (hashOf two_tiles) (_queue two_tiles).

Definition cursor (i pos : string) : Message :=
  text i ("invalidatecursor: " +:+ pos).
Definition status (i : string) : Message :=
  text i "statusindicatorfinish:".

(** More sample queues. *)
Definition after_tileA2 : state Message := (enqueue tileA2 two_tiles).1.

Definition mixed : state Message :=
  (serve_all (map Enqueue [cursor "1" "0,0"; status "2"; tileA1;
                           viewcursor "4" "1" "a"; progress_setvalue "5" "10"])
     empty_queue).1.

(** A run in which the third call throws. *)
Definition broken_run : list (request Message) :=
  [Enqueue tileA1; Enqueue (viewcursor "2" "1" "a"); Enqueue tileBad;
   Enqueue tileB].

(** A run with every kind of message, repeats and dequeues. *)
Definition busy_run : list (request Message) :=
  [Enqueue tileA1; Enqueue (cursor "2" "0,0"); Enqueue tileB;
   Enqueue (viewcursor "4" "1" "a"); Enqueue tileA2; Dequeue;
   Enqueue (progress_setvalue "5" "10"); Enqueue (cursor "6" "0,1");
   Enqueue (viewcursor "7" "1" "b"); Enqueue (progress_setvalue "8" "20");
   Enqueue (status "9"); Size].

(** A queue that [enqueue] cannot produce: a tile that does not parse and a
    tile whose hash was never cached. *)
Definition stale : state Message :=
  mkState false (fun _ => 0%Z) [tileBad; tileA1].

Definition one_status : state Message :=
  mkState false (fun _ => 0%Z) [status "0"].

End Wire.

(** * Properties *)

Section Properties.
Context {Item : Type} `{EqDecision Item} `{MessageOps Item}.
Context {exn TileDesc : Type} `{Externals exn TileDesc}.

Local Abbreviation M := (M Item exn).
Local Abbreviation state := (state Item).
Local Abbreviation dequeue := (@dequeue Item exn).
Local Abbreviation size := (@size Item exn).
Local Abbreviation dumpState := (@dumpState Item _ exn TileDesc _).

(** ** The deque operations on lists *)

Lemma with_queue_same (s : state) : with_queue s (_queue s) = s.
Proof. by destruct s. Qed.

Lemma remove_first_none (f : Item -> bool) l :
  Forall (fun x => f x = false) l -> remove_first f l = l.
Proof.
  induction 1 as [|x l Hx _ IH]; simpl; [done|].
  by rewrite Hx, IH.
Qed.

Lemma remove_first_middle (f : Item -> bool) l1 x l2 :
  Forall (fun y => f y = false) l1 -> f x = true ->
  remove_first f (l1 ++ x :: l2) = l1 ++ l2.
Proof.
  induction 1 as [|y l1 Hy _ IH]; simpl; intros Hx.
  - by rewrite Hx.
  - by rewrite Hy, IH.
Qed.

Lemma find_index_delete (f : Item -> bool) l i j :
  find_index f l i = Some j -> exists k, j = (i + k)%nat /\ delete k l = remove_first f l.
Proof.
  revert i; induction l as [|x l IH]; simpl; intros i; [done|].
  destruct (f x).
  - intros [= <-]. exists 0%nat. split; [lia|done].
  - intros Hj. destruct (IH _ Hj) as (k & -> & Hk).
    exists (S k). split; [lia|]. simpl. by rewrite Hk.
Qed.

Lemma find_index_none (f : Item -> bool) l i :
  find_index f l i = None -> remove_first f l = l.
Proof.
  revert i; induction l as [|x l IH]; simpl; intros i; [done|].
  destruct (f x); [done|]. intros Hn. by rewrite (IH _ Hn).
Qed.

(** A list with exactly one element accepted by [f] splits around it. *)
Lemma filter_singleton_split (f : Item -> bool) (l : list Item) (x : Item) :
  filter (fun y => f y = true) l = [x] ->
  exists l1 l2, l = l1 ++ x :: l2 /\ f x = true
    /\ Forall (fun y => f y = false) l1 /\ Forall (fun y => f y = false) l2.
Proof.
  induction l as [|y l IH]; [done|].
  rewrite filter_cons. case_decide as Hy.
  - intros [= -> Hnil]. exists [], l. repeat split; auto.
    apply Forall_forall. intros z Hz.
    destruct (f z) eqn:Hfz; [|done].
    assert (z ∈ filter (fun y => f y = true) l) as Hin
      by (apply list_elem_of_filter; auto).
    rewrite Hnil in Hin. by apply not_elem_of_nil in Hin.
  - intros Hl. destruct (IH Hl) as (l1 & l2 & -> & Hx & H1 & H2).
    exists (y :: l1), l2. repeat split; auto.
    constructor; [by destruct (f y)|done].
Qed.

(** ** Running the monad *)

Lemma find_if_from_pure (pred : Item -> M bool) (f : Item -> bool) l i (s : state) :
  (forall cur, cur ∈ l -> pred cur s = (s, Returns (f cur))) ->
  find_if_from pred l i s = (s, Returns (find_index f l i)).
Proof.
  revert i; induction l as [|x l IH]; intros i Hp; simpl; [done|].
  unfold bind. rewrite Hp by (apply elem_of_cons; auto).
  destruct (f x); [done|]. apply IH. intros cur Hcur. apply Hp.
  apply elem_of_cons; auto.
Qed.

(** [find_if] then [erase] with a predicate that returns [f cur] on every
    queued message. *)
Lemma find_erase_pure (pred : Item -> M bool) (f : Item -> bool) (s : state) :
  (forall cur, cur ∈ _queue s -> pred cur s = (s, Returns (f cur))) ->
  (do pos <- find_if pred; erase_if_found pos) s
  = (with_queue s (remove_first f (_queue s)), Returns tt).
Proof.
  intros Hp. unfold find_if, bind at 1 2. simpl.
  rewrite (find_if_from_pure pred f) by done.
  destruct (find_index f (_queue s) 0) as [j|] eqn:Hj; simpl.
  - destruct (find_index_delete _ _ _ _ Hj) as (k & -> & Hk).
    unfold bind, get_queue, put_queue, with_queue. simpl. by rewrite Hk.
  - rewrite (find_index_none _ _ _ Hj). unfold ret. by rewrite with_queue_same.
Qed.

Lemma bind_run {A B} (m : M A) (k : A -> M B) (s s' : state) a :
  m s = (s', Returns a) -> bind m k s = k a s'.
Proof. intros Hm. unfold bind. by rewrite Hm. Qed.

Lemma bind_assoc_run {A B C} (m : M A) (k : A -> M B) (k' : B -> M C) (s : state) :
  bind (bind m k) k' s = bind m (fun a => bind (k a) k') s.
Proof.
  unfold bind. destruct (m s) as [s1 [a|e]]; done.
Qed.

Lemma preserves_bind {A B} (m : M A) (k : A -> M B) :
  preserves m -> (forall a, preserves (k a)) -> preserves (bind m k).
Proof.
  intros Hm Hk s. unfold bind. specialize (Hm s).
  destruct (m s) as [s' [a|e]]; simpl in *; subst; [apply Hk|done].
Qed.

Lemma preserves_find_if_from (pred : Item -> M bool) l i :
  (forall cur, preserves (pred cur)) -> preserves (find_if_from pred l i).
Proof.
  intros Hp. revert i; induction l as [|x l IH]; intros i; simpl; [done|].
  apply preserves_bind; [done|]. intros [|]; [done|apply IH].
Qed.

Lemma preserves_find_if (pred : Item -> M bool) :
  (forall cur, preserves (pred cur)) -> preserves (find_if pred).
Proof.
  intros Hp. apply preserves_bind; [done|].
  intros q. by apply preserves_find_if_from.
Qed.

(** ** The branches of deduplicate *)

Ltac pick_branch :=
  repeat first
    [ rewrite decide_True by (simpl; auto; congruence)
    | rewrite decide_False by (simpl; intuition congruence) ].

Lemma deduplicate_tile item newTile (s : state) :
  firstToken item = "tile:" ->
  TileDesc_parse (firstLine item) = Returns newTile ->
  Forall tile_parseable (_queue s) ->
  deduplicate item s
  = (with_queue (with_hash s item (equalityHash newTile))
       (remove_first
          (tile_match (<[item := equalityHash newTile]> (hashOf s)) newTile)
          (_queue s)),
     Returns true).
Proof.
  intros Htok Hparse Hq. unfold deduplicate. pick_branch.
  unfold bind at 1. unfold call at 1. rewrite Hparse.
  unfold bind at 1. unfold setHash at 1. fold (with_hash s item (equalityHash newTile)).
  set (s1 := with_hash s item (equalityHash newTile)).
  rewrite <- (bind_assoc_run _ _ _ s1).
  erewrite (bind_run _ _ s1); [reflexivity|].
  rewrite (find_erase_pure _ (tile_match (hashOf s1) newTile)); [done|].
  intros cur Hcur. unfold tile_match, bind, getHash, call, ret.
  destruct (firstTokenMatches cur "tile:") eqn:Htm; cbn [negb andb]; [|done].
  destruct (equalityHash newTile =? hashOf s1 cur)%Z; cbn [negb andb]; [|done].
  rewrite Forall_forall in Hq. pose proof (Hq cur Hcur) as Hp.
  apply bool_decide_eq_true in Htm. specialize (Hp Htm).
  destruct (TileDesc_parse (firstLine cur)); [|done].
  by destruct (TileDesc_eq newTile a).
Qed.

Lemma deduplicate_replace_run command (s : state) :
  (do pos <- find_if (fun cur => ret (firstTokenMatches cur command) : M bool);
   erase_if_found pos ;; ret true) s
  = (with_queue s (remove_first (token_match command) (_queue s)), Returns true).
Proof.
  rewrite <- bind_assoc_run.
  erewrite bind_run; [reflexivity|].
  by apply find_erase_pure.
Qed.

Lemma deduplicate_replace item (s : state) :
  firstToken item = "invalidatecursor:" \/ firstToken item = "setpart:" ->
  deduplicate item s
  = (with_queue s (remove_first (token_match (firstToken item)) (_queue s)),
     Returns true).
Proof.
  intros Htok. unfold deduplicate.
  rewrite decide_False by (destruct Htok as [Ht|Ht]; rewrite Ht; done).
  rewrite decide_True by done.
  apply deduplicate_replace_run.
Qed.

Lemma deduplicate_progress_setvalue item (s : state) :
  firstToken item = "progress:" ->
  contains item setvalueTag = true ->
  deduplicate item s
  = (with_queue s (remove_first progress_match (_queue s)), Returns true).
Proof.
  intros Htok Htag. unfold deduplicate. pick_branch.
  rewrite Htag. erewrite bind_run; [reflexivity|].
  apply find_erase_pure. intros cur _. unfold progress_match. by rewrite Htok.
Qed.

Lemma deduplicate_progress_other item (s : state) :
  firstToken item = "progress:" ->
  contains item setvalueTag = false ->
  deduplicate item s = (s, Returns true).
Proof.
  intros Htok Htag. unfold deduplicate. pick_branch.
  by rewrite Htag.
Qed.

Lemma deduplicate_viewcursor item viewId (s : state) :
  firstToken item = "invalidateviewcursor:" ->
  json_viewId (jsonString item) = Returns viewId ->
  Forall view_parseable (_queue s) ->
  deduplicate item s
  = (with_queue s (remove_first (view_match viewId) (_queue s)), Returns true).
Proof.
  intros Htok Hview Hq. unfold deduplicate. pick_branch.
  unfold bind at 1. unfold call at 1. rewrite Hview.
  rewrite <- bind_assoc_run.
  erewrite bind_run; [reflexivity|].
  apply find_erase_pure. intros cur Hcur. unfold view_match. rewrite Htok.
  destruct (firstTokenMatches cur "invalidateviewcursor:") eqn:Htm; [|done].
  rewrite Forall_forall in Hq. pose proof (Hq cur Hcur) as Hp.
  apply bool_decide_eq_true in Htm. specialize (Hp Htm).
  unfold bind, call. by destruct (json_viewId (jsonString cur)).
Qed.

Lemma deduplicate_plain item (s : state) :
  plain_token (firstToken item) -> deduplicate item s = (s, Returns true).
Proof.
  intros (? & ? & ? & ? & ?). unfold deduplicate. by pick_branch.
Qed.

(** *** When deduplicate throws *)

Lemma deduplicate_tile_throws item e (s : state) :
  firstToken item = "tile:" ->
  TileDesc_parse (firstLine item) = Throws e ->
  deduplicate item s = (s, Throws e).
Proof.
  intros Htok Hparse. unfold deduplicate. pick_branch.
  unfold bind at 1. unfold call at 1. by rewrite Hparse.
Qed.

Lemma deduplicate_viewcursor_throws item e (s : state) :
  firstToken item = "invalidateviewcursor:" ->
  json_viewId (jsonString item) = Throws e ->
  deduplicate item s = (s, Throws e).
Proof.
  intros Htok Hview. unfold deduplicate. pick_branch.
  unfold bind at 1. unfold call at 1. by rewrite Hview.
Qed.

Lemma erase_if_found_returns pos (s : state) :
  exists s', (erase_if_found pos : M unit) s = (s', Returns tt).
Proof. destruct pos; simpl; eauto. Qed.

(** The search runs before the erase: an exception out of the search leaves
    the state as the search found it. *)
Lemma find_erase_throws (pred : Item -> M bool) (s s' : state) e :
  (forall cur, preserves (pred cur)) ->
  (do pos <- find_if pred; erase_if_found pos ;; ret true) s = (s', Throws e) ->
  s' = s.
Proof.
  intros Hp. unfold bind at 1.
  pose proof (preserves_find_if pred Hp s) as Hs.
  destruct (find_if pred s) as [s1 [pos|e1]]; simpl in Hs; subst s1.
  - unfold bind. destruct (erase_if_found_returns pos s) as [s2 ->]. done.
  - by intros [= -> _].
Qed.

(** Whatever [deduplicate] does, an exception out of it leaves the deque
    and the termination flag as they were; only the hash cached in the
    incoming message may have been written. *)
Lemma deduplicate_throws_frame item e (s s' : state) :
  deduplicate item s = (s', Throws e) ->
  _queue s' = _queue s /\ TerminationFlag s' = TerminationFlag s
  /\ forall other, other <> item -> hashOf s' other = hashOf s other.
Proof.
  unfold deduplicate.
  destruct (decide (firstToken item = "tile:")) as [Htile|_].
  { unfold bind at 1. unfold call at 1.
    destruct (TileDesc_parse (firstLine item)) as [newTile|e1];
      [|by intros [= <- _]].
    unfold bind at 1. unfold setHash at 1.
    intros Hthrow. apply find_erase_throws in Hthrow as ->.
    - simpl. repeat split. intros other Hne. by apply fn_lookup_insert_ne.
    - intros cur s0. unfold bind, getHash, call, ret.
      destruct (negb (firstTokenMatches cur "tile:")); [done|].
      destruct (negb (equalityHash newTile =? hashOf s0 cur)%Z); [done|].
      destruct (TileDesc_parse (firstLine cur)) as [t|]; [|done].
      by destruct (negb (TileDesc_eq newTile t)). }
  destruct (decide (_ \/ _)) as [Hrep|_].
  { by rewrite deduplicate_replace_run. }
  destruct (decide (firstToken item = "progress:")) as [Hprog|_].
  { destruct (contains item setvalueTag); [|done].
    erewrite bind_run; [done|]. by apply find_erase_pure. }
  destruct (decide (firstToken item = "invalidateviewcursor:")) as [Hview|_];
    [|done].
  unfold bind at 1. unfold call at 1.
  destruct (json_viewId (jsonString item)) as [viewId|e1];
    [|by intros [= <- _]].
  intros Hthrow. apply find_erase_throws in Hthrow as ->; [done|].
  intros cur s0. unfold bind, call, ret.
  destruct (firstTokenMatches cur (firstToken item)); [|done].
  by destruct (json_viewId (jsonString cur)).
Qed.

(** ** enqueue and dequeue *)

Lemma enqueue_returns item (s s1 : state) :
  TerminationFlag s = false ->
  deduplicate item s = (s1, Returns true) ->
  enqueue item s
  = (with_queue s1 (_queue s1 ++ [item]), Returns (S (length (_queue s1)))).
Proof.
  intros Hflag Hd. unfold enqueue, bind at 1, getTerminationFlag at 1.
  rewrite Hflag. cbn [negb]. unfold bind at 1. unfold bind at 1. rewrite Hd.
  unfold push_back, queue_size, bind, get_queue, put_queue, ret. simpl.
  rewrite length_app. simpl. f_equal. f_equal. lia.
Qed.

Lemma enqueue_throws item e (s s1 : state) :
  TerminationFlag s = false ->
  deduplicate item s = (s1, Throws e) ->
  enqueue item s = (s1, Throws e).
Proof.
  intros Hflag Hd. unfold enqueue, bind at 1, getTerminationFlag at 1.
  rewrite Hflag. cbn [negb]. unfold bind at 1. unfold bind at 1. by rewrite Hd.
Qed.

Lemma enqueue_terminated item (s : state) :
  TerminationFlag s = true ->
  enqueue item s = (s, Returns (length (_queue s))).
Proof.
  intros Hflag. unfold enqueue, bind at 1, getTerminationFlag at 1.
  by rewrite Hflag.
Qed.

Lemma dequeue_terminated (s : state) :
  TerminationFlag s = true -> dequeue s = (s, Returns None).
Proof.
  intros Hflag. unfold dequeue, bind at 1, getTerminationFlag at 1.
  by rewrite Hflag.
Qed.

Lemma dequeue_front front rest (s : state) :
  TerminationFlag s = false -> _queue s = front :: rest ->
  dequeue s = (with_queue s rest, Returns (Some front)).
Proof.
  intros Hflag Hq. unfold dequeue, bind at 1, getTerminationFlag at 1.
  rewrite Hflag. unfold bind at 1, get_queue at 1. by rewrite Hq.
Qed.

Lemma dequeue_empty (s : state) :
  TerminationFlag s = false -> _queue s = [] ->
  dequeue s = (s, Returns None).
Proof.
  intros Hflag Hq. unfold dequeue, bind at 1, getTerminationFlag at 1.
  rewrite Hflag. unfold bind at 1, get_queue at 1. by rewrite Hq.
Qed.

Lemma size_run (s : state) : size s = (s, Returns (length (_queue s))).
Proof. done. Qed.

(** ** Messages that do not interact *)

Lemma non_interacting_before q m later :
  non_interacting (q ++ m :: later) ->
  Forall (fun cur => supersedes m cur = false) q.
Proof.
  induction q as [|x q IH]; simpl; [done|].
  intros [Hx Hrest]. constructor; [|by apply IH].
  apply Forall_app in Hx as [_ Hx]. by apply Forall_cons in Hx as [Hx _].
Qed.

(** A message that supersedes nothing in the queue is appended and nothing
    else happens to the queue. *)
Lemma enqueue_no_interaction item (s : state) :
  TerminationFlag s = false ->
  parseable item ->
  Forall parseable (_queue s) ->
  Forall (fun cur => supersedes item cur = false) (_queue s) ->
  exists s',
    enqueue item s = (s', Returns (S (length (_queue s))))
    /\ _queue s' = _queue s ++ [item]
    /\ TerminationFlag s' = false.
Proof.
  intros Hflag [Htp Hvp] Hq Hno.
  assert (Forall tile_parseable (_queue s)) as Hqt
    by (eapply Forall_impl; [exact Hq|by intros ? []]).
  assert (Forall view_parseable (_queue s)) as Hqv
    by (eapply Forall_impl; [exact Hq|by intros ? []]).
  unfold supersedes in Hno.
  destruct (decide (firstToken item = "tile:")) as [Htile|Hntile].
  { specialize (Htp Htile).
    destruct (TileDesc_parse (firstLine item)) as [newTile|] eqn:Hparse; [|done].
    eexists. rewrite (enqueue_returns _ _ _ Hflag (deduplicate_tile _ _ _ Htile Hparse Hqt)).
    simpl. rewrite remove_first_none; [done|].
    eapply Forall_impl; [exact Hno|]. intros cur Hcur. cbv beta in Hcur. unfold tile_match.
    destruct (firstTokenMatches cur "tile:"); [|done].
    rewrite andb_true_l in Hcur. rewrite Hcur. apply andb_false_r. }
  destruct (decide (_ \/ _)) as [Hrep|Hnrep].
  { eexists. rewrite (enqueue_returns _ _ _ Hflag (deduplicate_replace _ _ Hrep)).
    simpl. by rewrite remove_first_none. }
  destruct (decide (firstToken item = "progress:")) as [Hprog|Hnprog].
  { destruct (contains item setvalueTag) eqn:Htag.
    - eexists.
      rewrite (enqueue_returns _ _ _ Hflag (deduplicate_progress_setvalue _ _ Hprog Htag)).
      simpl. rewrite remove_first_none; [done|].
      eapply Forall_impl; [exact Hno|]. intros cur Hcur. cbv beta in Hcur. unfold progress_match.
      rewrite Hprog in Hcur. by destruct (firstTokenMatches cur "progress:"), (contains cur setvalueTag).
    - eexists.
      by rewrite (enqueue_returns _ _ _ Hflag (deduplicate_progress_other _ _ Hprog Htag)). }
  destruct (decide (firstToken item = "invalidateviewcursor:")) as [Hview|Hnview].
  { specialize (Hvp Hview).
    destruct (json_viewId (jsonString item)) as [viewId|] eqn:Hid; [|done].
    eexists.
    rewrite (enqueue_returns _ _ _ Hflag (deduplicate_viewcursor _ _ _ Hview Hid Hqv)).
    simpl. rewrite remove_first_none; [done|].
    eapply Forall_impl; [exact Hno|]. intros cur Hcur. cbv beta in Hcur. unfold view_match.
    by rewrite Hview in Hcur. }
  eexists. rewrite (enqueue_returns _ _ s Hflag); [done|].
  apply deduplicate_plain. unfold plain_token. tauto.
Qed.

(** Under the hypotheses of the FIFO baseline the queue answers every
    sequence of calls as a plain FIFO queue does. *)
Lemma serve_all_fifo (rs : list (request Item)) (s : state) :
  TerminationFlag s = false ->
  Forall parseable (_queue s ++ enqueued rs) ->
  non_interacting (_queue s ++ enqueued rs) ->
  exists s',
    serve_all rs s = (s', Returns (fifo_answers (_queue s) rs))
    /\ _queue s' = fifo_queue (_queue s) rs
    /\ TerminationFlag s' = false.
Proof.
  revert s. induction rs as [|r rs IH]; intros s Hflag Hwf Hni.
  { exists s. done. }
  destruct r as [m| |]; simpl.
  - change (enqueued (Enqueue m :: rs)) with (m :: enqueued rs) in Hwf, Hni.
    destruct (enqueue_no_interaction m s) as (s1 & Hrun & Hq1 & Hflag1); auto.
    { apply Forall_app in Hwf as [_ Hwf]. by apply Forall_cons in Hwf as [? _]. }
    { by apply Forall_app in Hwf as [? _]. }
    { by eapply non_interacting_before. }
    rewrite cons_middle, app_assoc in Hwf, Hni. rewrite <- Hq1 in Hwf, Hni.
    destruct (IH s1 Hflag1 Hwf Hni) as (s' & Hrest & Hq' & Hflag').
    exists s'. unfold bind at 1 2. rewrite Hrun. unfold ret at 1.
    unfold bind at 1. rewrite Hrest, Hq', Hq1. done.
  - change (enqueued (Dequeue :: rs)) with (enqueued rs) in Hwf, Hni.
    destruct (_queue s) as [|front rest] eqn:Hq.
    + destruct (IH s Hflag) as (s' & Hrest & Hq' & Hflag'); [by rewrite Hq..|].
      exists s'. unfold bind at 1 2. rewrite dequeue_empty by done.
      unfold ret at 1, bind at 1. rewrite Hrest, Hq', Hq. done.
    + simpl in Hwf, Hni. apply Forall_cons in Hwf as [_ Hwf]. destruct Hni as [_ Hni].
      destruct (IH (with_queue s rest) Hflag Hwf Hni) as (s' & Hrest & Hq' & Hflag').
      exists s'. unfold bind at 1 2. rewrite (dequeue_front front rest) by done.
      unfold ret at 1, bind at 1. rewrite Hrest, Hq'. done.
  - change (enqueued (Size :: rs)) with (enqueued rs) in Hwf, Hni.
    destruct (IH s Hflag Hwf Hni) as (s' & Hrest & Hq' & Hflag').
    exists s'. unfold bind at 1 2. rewrite size_run.
    unfold ret at 1, bind at 1. rewrite Hrest, Hq'. done.
Qed.

(** A plain FIFO queue returns what it was given, in order. *)
Lemma fifo_order (rs : list (request Item)) (q : list Item) :
  q ++ enqueued rs = delivered (fifo_answers q rs) ++ fifo_queue q rs.
Proof.
  revert q. induction rs as [|r rs IH]; intros q; simpl.
  { by rewrite app_nil_r. }
  destruct r as [m| |].
  - change (enqueued (Enqueue m :: rs)) with (m :: enqueued rs).
    change (delivered (QueueLength (S (length q)) :: ?l)) with (delivered l).
    by rewrite <- IH, cons_middle, app_assoc.
  - change (enqueued (Dequeue :: rs)) with (enqueued rs).
    destruct q as [|front rest]; simpl.
    + change (delivered (Dequeued None :: ?l)) with (delivered l). apply (IH []).
    + change (delivered (Dequeued (Some front) :: ?l)) with (front :: delivered l).
      simpl. f_equal. apply IH.
  - change (enqueued (Size :: rs)) with (enqueued rs).
    change (delivered (QueueLength (length q) :: ?l)) with (delivered l). apply IH.
Qed.

Lemma fifo_enqueue_all (msgs : list Item) (q : list Item) (rest : list (request Item)) :
  delivered (fifo_answers q (map Enqueue msgs ++ rest))
  = delivered (fifo_answers (q ++ msgs) rest)
  /\ fifo_queue q (map Enqueue msgs ++ rest) = fifo_queue (q ++ msgs) rest.
Proof.
  revert q. induction msgs as [|m msgs IH]; intros q; simpl.
  { by rewrite app_nil_r. }
  change (delivered (QueueLength (S (length q)) :: ?l)) with (delivered l).
  replace (q ++ m :: msgs) with ((q ++ [m]) ++ msgs) by (by rewrite <- app_assoc).
  apply IH.
Qed.

Lemma fifo_dequeue_all (q : list Item) :
  delivered (fifo_answers q (replicate (length q) Dequeue)) = q
  /\ fifo_queue q (replicate (length q) Dequeue) = [].
Proof.
  induction q as [|x q [IH1 IH2]]; simpl; [done|].
  change (delivered (Dequeued (Some x) :: ?l)) with (x :: delivered l).
  by rewrite IH1, IH2.
Qed.

(** Enqueue a list, dequeue as many times: the plain queue returns the list. *)
Lemma fifo_drain (msgs : list Item) :
  delivered (fifo_answers [] (map Enqueue msgs ++ replicate (length msgs) Dequeue))
  = msgs
  /\ fifo_queue [] (map Enqueue msgs ++ replicate (length msgs) Dequeue) = [].
Proof.
  destruct (fifo_enqueue_all msgs [] (replicate (length msgs) Dequeue)) as [-> ->].
  simpl. apply fifo_dequeue_all.
Qed.

(** ** Tiles *)

Lemma remove_first_ext (f g : Item -> bool) l :
  (forall x, x ∈ l -> f x = g x) -> remove_first f l = remove_first g l.
Proof.
  induction l as [|x l IH]; intros Hfg; simpl; [done|].
  rewrite <- (Hfg x) by (apply elem_of_cons; auto).
  destruct (f x); [done|]. f_equal. apply IH.
  intros y Hy. apply Hfg. apply elem_of_cons; auto.
Qed.

Lemma remove_first_sublist (f : Item -> bool) l : remove_first f l `sublist_of` l.
Proof.
  induction l as [|x l IH]; simpl; [done|].
  destruct (f x); [by apply sublist_cons|by apply sublist_skip].
Qed.

(** An element the predicate rejects is not the one removed. *)
Lemma remove_first_keeps (f : Item -> bool) l1 x l2 :
  f x = false ->
  exists l1' l2',
    remove_first f (l1 ++ x :: l2) = l1' ++ x :: l2'
    /\ l1' `sublist_of` l1 /\ l2' `sublist_of` l2.
Proof.
  intros Hx. induction l1 as [|y l1 (l1' & l2' & Heq & H1 & H2)]; simpl.
  - rewrite Hx. exists [], (remove_first f l2).
    split; [done|]. split; [done|apply remove_first_sublist].
  - destruct (f y).
    + exists l1, l2. split; [done|]. split; [by apply sublist_cons|done].
    + exists (y :: l1'), l2'. rewrite Heq. split; [done|].
      split; [by apply sublist_skip|done].
Qed.

Lemma hash_cached_parseable (s : state) :
  hash_cached s -> Forall tile_parseable (_queue s).
Proof.
  intros Hc. apply Forall_forall. intros cur Hcur Htok.
  destruct (Hc cur Hcur Htok) as (t & -> & _). done.
Qed.

(** With the hashes cached, the search of the tile branch accepts exactly
    the queued tile messages of the incoming descriptor. *)
Lemma tile_match_same_tile item newTile (s : state) cur :
  hash_respects_eq -> hash_cached s ->
  TileDesc_parse (firstLine item) = Returns newTile ->
  cur ∈ _queue s ->
  tile_match (<[item := equalityHash newTile]> (hashOf s)) newTile cur
  = same_tile newTile cur.
Proof.
  intros Hhash Hc Hparse Hcur. unfold tile_match, same_tile.
  destruct (firstTokenMatches cur "tile:") eqn:Htm; [|done].
  apply bool_decide_eq_true in Htm.
  destruct (Hc cur Hcur Htm) as (t & Ht & Hh). rewrite Ht. simpl.
  destruct (TileDesc_eq newTile t) eqn:Heq; [|apply andb_false_r].
  rewrite andb_true_r. apply Z.eqb_eq.
  destruct (decide (item = cur)) as [->|Hne].
  - by rewrite fn_lookup_insert.
  - rewrite fn_lookup_insert_ne by done. rewrite Hh. by apply Hhash.
Qed.

(** *** The cached hashes in the states the queue can reach *)

Lemma find_erase_frame (pred : Item -> M bool) (s s' : state) r :
  (forall cur, preserves (pred cur)) ->
  (do pos <- find_if pred; erase_if_found pos ;; ret true) s = (s', r) ->
  TerminationFlag s' = TerminationFlag s /\ hashOf s' = hashOf s
  /\ _queue s' ⊆ _queue s.
Proof.
  intros Hp. unfold bind at 1.
  pose proof (preserves_find_if pred Hp s) as Hs.
  destruct (find_if pred s) as [s1 [pos|e1]]; simpl in Hs; subst s1.
  - destruct pos as [i|]; simpl; intros [= <- _]; simpl; [|done].
    repeat split. apply list_subseteq_delete.
  - by intros [= <- _].
Qed.

Lemma deduplicate_frame item (s s' : state) r :
  deduplicate item s = (s', r) ->
  TerminationFlag s' = TerminationFlag s /\ _queue s' ⊆ _queue s
  /\ ((firstToken item <> "tile:" /\ hashOf s' = hashOf s)
      \/ (firstToken item = "tile:"
          /\ ((hashOf s' = hashOf s /\ ~ returned r)
              \/ exists newTile,
                   TileDesc_parse (firstLine item) = Returns newTile
                   /\ hashOf s' = <[item := equalityHash newTile]> (hashOf s)))).
Proof.
  unfold deduplicate.
  destruct (decide (firstToken item = "tile:")) as [Htile|Hntile].
  { unfold bind at 1. unfold call at 1.
    destruct (TileDesc_parse (firstLine item)) as [newTile|e1].
    - unfold bind at 1. unfold setHash at 1. intros Hrun.
      apply find_erase_frame in Hrun as (Hf & Hh & Hq).
      + simpl in *. repeat split; [done..|]. right. split; [done|]. right. eauto.
      + intros cur s0. unfold bind, getHash, call, ret.
        destruct (negb (firstTokenMatches cur "tile:")); [done|].
        destruct (negb (equalityHash newTile =? hashOf s0 cur)%Z); [done|].
        destruct (TileDesc_parse (firstLine cur)) as [t|]; [|done].
        by destruct (negb (TileDesc_eq newTile t)).
    - intros [= <- <-]. repeat split; [done|]. right. split; [done|]. left. auto. }
  assert (forall pred : Item -> M bool,
            (forall cur, preserves (pred cur)) ->
            (do pos <- find_if pred; erase_if_found pos ;; ret true) s = (s', r) ->
            TerminationFlag s' = TerminationFlag s /\ _queue s' ⊆ _queue s
            /\ ((firstToken item <> "tile:" /\ hashOf s' = hashOf s)
                \/ (firstToken item = "tile:"
                    /\ ((hashOf s' = hashOf s /\ ~ returned r)
                        \/ exists newTile,
                             TileDesc_parse (firstLine item) = Returns newTile
                             /\ hashOf s' = <[item := equalityHash newTile]> (hashOf s)))))
    as Hgen.
  { intros pred Hp Hrun. apply find_erase_frame in Hrun as (Hf & Hh & Hq); auto. }
  destruct (decide (_ \/ _)) as [Hrep|_].
  { apply Hgen. by intros cur s0. }
  destruct (decide (firstToken item = "progress:")) as [Hprog|_].
  { destruct (contains item setvalueTag).
    - rewrite bind_assoc_run. apply Hgen. by intros cur s0.
    - intros [= <- _]. auto. }
  destruct (decide (firstToken item = "invalidateviewcursor:")) as [Hview|_].
  { unfold bind at 1. unfold call at 1.
    destruct (json_viewId (jsonString item)) as [viewId|e1].
    - apply Hgen. intros cur s0. unfold bind, call, ret.
      destruct (firstTokenMatches cur (firstToken item)); [|done].
      by destruct (json_viewId (jsonString cur)).
    - intros [= <- _]. auto. }
  intros [= <- _]. auto.
Qed.

Lemma hash_cached_empty (s : state) : _queue s = [] -> hash_cached s.
Proof. intros Hq cur Hcur. rewrite Hq in Hcur. by apply not_elem_of_nil in Hcur. Qed.

(** [enqueue] keeps the hashes cached, whether it returns or throws. *)
Lemma hash_cached_enqueue item (s s' : state) r :
  hash_cached s -> enqueue item s = (s', r) -> hash_cached s'.
Proof.
  intros Hc. unfold enqueue, bind at 1, getTerminationFlag at 1.
  destruct (TerminationFlag s); [by intros [= <- _]|]. cbn [negb].
  unfold bind at 1. unfold bind at 1.
  destruct (deduplicate item s) as [s1 r1] eqn:Hd.
  destruct (deduplicate_frame _ _ _ _ Hd) as (_ & Hsub & Hhash).
  assert (forall cur, (cur ∈ _queue s1 \/ (cur = item /\ returned r1)) ->
            firstToken cur = "tile:" ->
            exists curTile, TileDesc_parse (firstLine cur) = Returns curTile
                            /\ hashOf s1 cur = equalityHash curTile) as Hc1.
  { intros cur Hcur Htok.
    destruct Hhash as [[Hne ->]|[Htile [[-> Hthrow]|(newTile & Hparse & ->)]]].
    - destruct Hcur as [Hcur|[-> _]]; [|done]. apply Hc; auto.
    - destruct Hcur as [Hcur|[-> ?]]; [|done]. apply Hc; auto.
    - destruct (decide (item = cur)) as [->|Hne].
      + exists newTile. by rewrite fn_lookup_insert.
      + rewrite fn_lookup_insert_ne by done.
        destruct Hcur as [Hcur|[-> _]]; [|done]. apply Hc; auto. }
  destruct r1 as [fresh|e]; [|intros [= <- _]; intros cur Hcur; apply Hc1; auto].
  destruct fresh; simpl.
  - intros [= <- _] cur Hcur. simpl in *. apply Hc1.
    apply elem_of_app in Hcur as [Hcur|Hcur]; [auto|].
    apply list_elem_of_singleton in Hcur. auto.
  - intros [= <- _] cur Hcur. apply Hc1. auto.
Qed.

Lemma hash_cached_dequeue (s s' : state) r :
  hash_cached s -> dequeue s = (s', r) -> hash_cached s'.
Proof.
  intros Hc. unfold dequeue, bind at 1, getTerminationFlag at 1.
  destruct (TerminationFlag s); [by intros [= <- _]|].
  unfold bind at 1, get_queue at 1.
  destruct (_queue s) as [|front rest] eqn:Hq; [by intros [= <- _]|].
  intros [= <- _] cur Hcur. simpl in *. apply Hc. rewrite Hq.
  apply elem_of_cons; auto.
Qed.

(** Every state reached from an empty queue has the hashes cached. *)
Lemma hash_cached_serve_all rs (s s' : state) r :
  hash_cached s -> serve_all rs s = (s', r) -> hash_cached s'.
Proof.
  revert s s' r. induction rs as [|req rs IH]; intros s s' r Hc; simpl.
  { by intros [= <- _]. }
  unfold bind at 1.
  destruct (serve req s) as [s1 r1] eqn:Hserve.
  assert (hash_cached s1) as Hc1.
  { destruct req as [item| |]; simpl in Hserve; unfold bind in Hserve.
    - destruct (enqueue item s) as [s0 r0] eqn:Hrun.
      apply (hash_cached_enqueue _ _ _ _ Hc) in Hrun.
      destruct r0; by injection Hserve as <- _.
    - destruct (dequeue s) as [s0 r0] eqn:Hrun.
      apply (hash_cached_dequeue _ _ _ Hc) in Hrun.
      destruct r0; by injection Hserve as <- _.
    - by injection Hserve as <- _. }
  destruct r1 as [a|e]; [|by intros [= <- _]].
  unfold bind.
  destruct (serve_all rs s1) as [s2 r2] eqn:Hrest.
  apply (IH _ _ _ Hc1) in Hrest.
  destruct r2; by intros [= <- _].
Qed.

Lemma deduplicate_returns_view item (s s' : state) fresh :
  deduplicate item s = (s', Returns fresh) -> view_parseable item.
Proof.
  intros Hrun Htok. unfold deduplicate in Hrun. revert Hrun. pick_branch.
  unfold bind at 1. unfold call at 1.
  by destruct (json_viewId (jsonString item)).
Qed.

(** [enqueue] keeps the queued view cursor messages well-formed. *)
Lemma view_parseable_enqueue item (s s' : state) r :
  Forall view_parseable (_queue s) -> enqueue item s = (s', r) ->
  Forall view_parseable (_queue s').
Proof.
  intros Hq. unfold enqueue, bind at 1, getTerminationFlag at 1.
  destruct (TerminationFlag s); [by intros [= <- _]|]. cbn [negb].
  unfold bind at 1. unfold bind at 1.
  destruct (deduplicate item s) as [s1 r1] eqn:Hd.
  destruct (deduplicate_frame _ _ _ _ Hd) as (_ & Hsub & _).
  assert (Forall view_parseable (_queue s1)) as Hq1.
  { rewrite Forall_forall in *. intros x Hx. apply Hq, Hsub, Hx. }
  destruct r1 as [fresh|e]; [|by intros [= <- _]].
  pose proof (deduplicate_returns_view _ _ _ _ Hd) as Hitem.
  destruct fresh; simpl; intros [= <- _]; simpl; [|done].
  apply Forall_app. split; [done|]. by apply Forall_singleton.
Qed.

Lemma view_parseable_dequeue (s s' : state) r :
  Forall view_parseable (_queue s) -> dequeue s = (s', r) ->
  Forall view_parseable (_queue s').
Proof.
  intros Hq. unfold dequeue, bind at 1, getTerminationFlag at 1.
  destruct (TerminationFlag s); [by intros [= <- _]|].
  unfold bind at 1, get_queue at 1.
  destruct (_queue s) as [|front rest] eqn:Hqs;
    [intros [= <- _]; by rewrite Hqs|].
  intros [= <- _]. simpl. by apply Forall_cons in Hq as [_ ?].
Qed.

(** Every state reached from an empty queue has them well-formed. *)
Lemma view_parseable_serve_all rs (s s' : state) r :
  Forall view_parseable (_queue s) -> serve_all rs s = (s', r) ->
  Forall view_parseable (_queue s').
Proof.
  revert s s' r. induction rs as [|req rs IH]; intros s s' r Hq; simpl.
  { by intros [= <- _]. }
  unfold bind at 1.
  destruct (serve req s) as [s1 r1] eqn:Hserve.
  assert (Forall view_parseable (_queue s1)) as Hq1.
  { destruct req as [item| |]; simpl in Hserve; unfold bind in Hserve.
    - destruct (enqueue item s) as [s0 r0] eqn:Hrun.
      apply (view_parseable_enqueue _ _ _ _ Hq) in Hrun.
      destruct r0; by injection Hserve as <- _.
    - destruct (dequeue s) as [s0 r0] eqn:Hrun.
      apply (view_parseable_dequeue _ _ _ Hq) in Hrun.
      destruct r0; by injection Hserve as <- _.
    - by injection Hserve as <- _. }
  destruct r1 as [a|e]; [|by intros [= <- _]].
  unfold bind.
  destruct (serve_all rs s1) as [s2 r2] eqn:Hrest.
  apply (IH _ _ _ Hq1) in Hrest.
  destruct r2; by intros [= <- _].
Qed.

(** C1 (tile supersession).  A [tile:] message whose descriptor equals that
    of exactly one queued tile message: [enqueue] removes that older message
    and appends the new one, which is then the only queued message of that
    descriptor and sits at the tail; the length returned is the length
    before the call. *)
Theorem tile_supersession item newTile (s : state) :
  TerminationFlag s = false ->
  firstToken item = "tile:" ->
  TileDesc_parse (firstLine item) = Returns newTile ->
  TileDesc_eq newTile newTile = true ->
  hash_respects_eq ->
  hash_cached s ->
  length (filter (fun cur => same_tile newTile cur = true) (_queue s)) = 1%nat ->
  exists q1 old q2 s',
    _queue s = q1 ++ old :: q2
    /\ same_tile newTile old = true
    /\ enqueue item s = (s', Returns (length (_queue s)))
    /\ _queue s' = q1 ++ q2 ++ [item]
    /\ filter (fun cur => same_tile newTile cur = true) (_queue s') = [item]
    /\ last (_queue s') = Some item.
Proof.
  intros Hflag Htok Hparse Hrefl Hhash Hc Hone.
  destruct (filter _ (_queue s)) as [|old [|]] eqn:Hfilter; try done.
  destruct (filter_singleton_split _ _ _ Hfilter) as (q1 & q2 & Hq & Hold & H1 & H2).
  exists q1, old, q2. eexists.
  rewrite (enqueue_returns _ _ _ Hflag
             (deduplicate_tile _ _ _ Htok Hparse (hash_cached_parseable _ Hc))).
  simpl.
  rewrite (remove_first_ext _ (same_tile newTile))
    by (intros; by eapply tile_match_same_tile).
  rewrite Hq, (remove_first_middle _ _ _ _ H1 Hold).
  repeat split; try done.
  - do 2 f_equal. rewrite !length_app. simpl. lia.
  - simpl. by rewrite <- app_assoc.
  - simpl. rewrite !filter_app.
    assert (forall l, Forall (fun y => same_tile newTile y = false) l ->
                      filter (fun cur => same_tile newTile cur = true) l = []) as Hnone.
    { induction 1 as [|y l Hy _ IH]; [done|].
      rewrite filter_cons, decide_False by congruence. done. }
    rewrite (Hnone _ H1), (Hnone _ H2). simpl.
    rewrite filter_cons, decide_True; [done|].
    unfold same_tile, firstTokenMatches.
    rewrite bool_decide_eq_true_2 by done. by rewrite Hparse.
  - simpl. by rewrite last_snoc.
Qed.

(** C5 (tile hash collision).  A queued tile message whose descriptor
    differs from the incoming one is not the message removed, whatever the
    cached hashes are (equal hashes included): it stays queued, between
    what stays of its neighbours.  When every queued tile message differs,
    nothing is removed and the incoming message is appended. *)
Theorem tile_collision_non_interference item newTile (s : state) :
  TerminationFlag s = false ->
  firstToken item = "tile:" ->
  TileDesc_parse (firstLine item) = Returns newTile ->
  Forall tile_parseable (_queue s) ->
  (forall q1 cur q2,
      _queue s = q1 ++ cur :: q2 -> same_tile newTile cur = false ->
      exists s' n q1' q2',
        enqueue item s = (s', Returns n)
        /\ _queue s' = q1' ++ cur :: q2' ++ [item]
        /\ q1' `sublist_of` q1 /\ q2' `sublist_of` q2)
  /\ (Forall (fun cur => same_tile newTile cur = false) (_queue s) ->
      exists s',
        enqueue item s = (s', Returns (S (length (_queue s))))
        /\ _queue s' = _queue s ++ [item]).
Proof.
  intros Hflag Htok Hparse Hq.
  pose proof (enqueue_returns _ _ _ Hflag (deduplicate_tile _ _ _ Htok Hparse Hq))
    as Hrun.
  assert (forall cur, same_tile newTile cur = false ->
            tile_match (<[item := equalityHash newTile]> (hashOf s)) newTile cur
            = false) as Hno.
  { intros cur. unfold same_tile, tile_match.
    destruct (firstTokenMatches cur "tile:"); [|done].
    rewrite !andb_true_l. intros ->. apply andb_false_r. }
  split.
  - intros q1 cur q2 Hsplit Hcur.
    destruct (remove_first_keeps _ q1 cur q2 (Hno _ Hcur)) as (q1' & q2' & Heq & H1 & H2).
    eexists _, _, q1', q2'. rewrite Hrun. simpl.
    repeat split; try done. rewrite Hsplit, Heq. by rewrite <- app_assoc.
  - intros Hall. eexists. rewrite Hrun. simpl.
    rewrite remove_first_none; [done|].
    eapply Forall_impl; [exact Hall|]. intros cur. apply Hno.
Qed.

(** ** Cursor, part and progress messages *)

Lemma enqueue_replace item (s : state) :
  TerminationFlag s = false ->
  firstToken item = "invalidatecursor:" \/ firstToken item = "setpart:" ->
  enqueue item s
  = (with_queue s (remove_first (token_match (firstToken item)) (_queue s) ++ [item]),
     Returns (S (length (remove_first (token_match (firstToken item)) (_queue s))))).
Proof.
  intros Hflag Htok.
  by rewrite (enqueue_returns _ _ _ Hflag (deduplicate_replace _ _ Htok)).
Qed.

Lemma enqueue_progress_setvalue item (s : state) :
  TerminationFlag s = false ->
  firstToken item = "progress:" ->
  contains item setvalueTag = true ->
  enqueue item s
  = (with_queue s (remove_first progress_match (_queue s) ++ [item]),
     Returns (S (length (remove_first progress_match (_queue s))))).
Proof.
  intros Hflag Htok Htag.
  by rewrite (enqueue_returns _ _ _ Hflag (deduplicate_progress_setvalue _ _ Htok Htag)).
Qed.

Lemma enqueue_append item (s : state) :
  TerminationFlag s = false ->
  deduplicate item s = (s, Returns true) ->
  enqueue item s
  = (with_queue s (_queue s ++ [item]), Returns (S (length (_queue s)))).
Proof. intros Hflag Hd. by rewrite (enqueue_returns _ _ _ Hflag Hd). Qed.

Lemma serve_all_enqueue item rs (s s1 : state) n :
  enqueue item s = (s1, Returns n) ->
  serve_all (Enqueue item :: rs) s
  = match serve_all rs s1 with
    | (s2, Returns answers) => (s2, Returns (QueueLength n :: answers))
    | (s2, Throws e) => (s2, Throws e)
    end.
Proof. intros Hrun. simpl. unfold bind. by rewrite Hrun. Qed.

Lemma token_match_true command cur :
  firstToken cur = command -> token_match command cur = true.
Proof. intros. by apply bool_decide_eq_true. Qed.

Lemma token_match_false command cur :
  firstToken cur <> command -> token_match command cur = false.
Proof. intros. by apply bool_decide_eq_false. Qed.

(** C8 (cursor/part replace-latest).  An [invalidatecursor:] or [setpart:]
    message removes the first queued message with its own command token and
    nothing else, then is appended; with no such message queued it is only
    appended.  Scenario: invalidatecursor, invalidatecursor, an unrelated
    message, invalidatecursor, into an empty queue, leave the unrelated
    message followed by the last invalidatecursor. *)
Theorem cursor_part_replace_latest :
  (forall (s : state) item,
      TerminationFlag s = false ->
      firstToken item = "invalidatecursor:" \/ firstToken item = "setpart:" ->
      (forall q1 old q2,
          _queue s = q1 ++ old :: q2 ->
          Forall (fun m => firstToken m <> firstToken item) q1 ->
          firstToken old = firstToken item ->
          enqueue item s
          = (with_queue s (q1 ++ q2 ++ [item]), Returns (length (_queue s))))
      /\ (Forall (fun m => firstToken m <> firstToken item) (_queue s) ->
          enqueue item s
          = (with_queue s (_queue s ++ [item]), Returns (S (length (_queue s))))))
  /\ (forall (s : state) c1 c2 u c3,
        TerminationFlag s = false -> _queue s = [] ->
        firstToken c1 = "invalidatecursor:" ->
        firstToken c2 = "invalidatecursor:" ->
        firstToken c3 = "invalidatecursor:" ->
        plain_token (firstToken u) ->
        serve_all [Enqueue c1; Enqueue c2; Enqueue u; Enqueue c3] s
        = (with_queue s [u; c3],
           Returns [QueueLength 1; QueueLength 1; QueueLength 2; QueueLength 2])).
Proof.
  split.
  - intros s item Hflag Htok. rewrite (enqueue_replace _ _ Hflag Htok). split.
    + intros q1 old q2 Hq Hq1 Hold. rewrite Hq.
      rewrite remove_first_middle.
      * rewrite <- app_assoc. do 2 f_equal. rewrite !length_app. simpl. lia.
      * eapply Forall_impl; [exact Hq1|]. intros m. apply token_match_false.
      * by apply token_match_true.
    + intros Hnone. rewrite remove_first_none; [done|].
      eapply Forall_impl; [exact Hnone|]. intros m. apply token_match_false.
  - intros s c1 c2 u c3 Hflag Hq H1 H2 H3 Hu.
    assert (firstToken u <> "invalidatecursor:") as Hne by (destruct Hu; tauto).
    erewrite serve_all_enqueue by (apply enqueue_replace; auto).
    rewrite Hq. cbn [remove_first app length].
    erewrite serve_all_enqueue by (apply enqueue_replace; auto).
    cbn [_queue with_queue remove_first app length].
    rewrite H2, (token_match_true _ c1) by done. cbn [app length].
    erewrite serve_all_enqueue
      by (apply enqueue_append; [done|by apply deduplicate_plain]).
    cbn [_queue with_queue remove_first app length].
    erewrite serve_all_enqueue by (apply enqueue_replace; auto).
    cbn [_queue with_queue remove_first app length TerminationFlag hashOf].
    rewrite H3, (token_match_true _ c2) by done.
    done.
Qed.

(** C6 (progress marker specificity).  A [progress:] message without the
    setvalue tag removes nothing.  One with the tag removes the first queued
    [progress:] message that contains the tag, so never a tag-free one, and
    nothing when there is none.  Scenario: tagged, tag-free, tagged, into an
    empty queue, leave the tag-free message followed by the last tagged
    one. *)
Theorem progress_marker_specificity :
  (forall (s : state) item,
      TerminationFlag s = false ->
      firstToken item = "progress:" ->
      (contains item setvalueTag = false ->
       enqueue item s
       = (with_queue s (_queue s ++ [item]), Returns (S (length (_queue s)))))
      /\ (contains item setvalueTag = true ->
          (forall q1 old q2,
              _queue s = q1 ++ old :: q2 ->
              Forall (fun m => firstToken m = "progress:" ->
                               contains m setvalueTag = false) q1 ->
              firstToken old = "progress:" ->
              contains old setvalueTag = true ->
              enqueue item s
              = (with_queue s (q1 ++ q2 ++ [item]), Returns (length (_queue s))))
          /\ (Forall (fun m => firstToken m = "progress:" ->
                               contains m setvalueTag = false) (_queue s) ->
              enqueue item s
              = (with_queue s (_queue s ++ [item]),
                 Returns (S (length (_queue s)))))))
  /\ (forall (s : state) p1 p2 p3,
        TerminationFlag s = false -> _queue s = [] ->
        firstToken p1 = "progress:" -> contains p1 setvalueTag = true ->
        firstToken p2 = "progress:" -> contains p2 setvalueTag = false ->
        firstToken p3 = "progress:" -> contains p3 setvalueTag = true ->
        serve_all [Enqueue p1; Enqueue p2; Enqueue p3] s
        = (with_queue s [p2; p3],
           Returns [QueueLength 1; QueueLength 2; QueueLength 2])).
Proof.
  assert (forall m, (firstToken m = "progress:" -> contains m setvalueTag = false) ->
                    progress_match m = false) as Hno.
  { intros m Hm. unfold progress_match, firstTokenMatches.
    destruct (decide (firstToken m = "progress:")) as [Ht|Ht].
    - rewrite (Hm Ht). apply andb_false_r.
    - by rewrite bool_decide_eq_false_2. }
  assert (forall m, firstToken m = "progress:" -> contains m setvalueTag = true ->
                    progress_match m = true) as Hyes.
  { intros m Ht Hc. unfold progress_match, firstTokenMatches.
    by rewrite bool_decide_eq_true_2, Hc. }
  split.
  - intros s item Hflag Htok. split.
    + intros Htag. apply enqueue_append; [done|].
      by apply deduplicate_progress_other.
    + intros Htag. rewrite (enqueue_progress_setvalue _ _ Hflag Htok Htag). split.
      * intros q1 old q2 Hq Hq1 Hold1 Hold2. rewrite Hq.
        rewrite remove_first_middle.
        -- rewrite <- app_assoc. do 2 f_equal. rewrite !length_app. simpl. lia.
        -- eapply Forall_impl; [exact Hq1|]. apply Hno.
        -- by apply Hyes.
      * intros Hnone. rewrite remove_first_none; [done|].
        eapply Forall_impl; [exact Hnone|]. apply Hno.
  - intros s p1 p2 p3 Hflag Hq H1 T1 H2 T2 H3 T3.
    erewrite serve_all_enqueue by (by apply enqueue_progress_setvalue).
    rewrite Hq. cbn [remove_first app length].
    erewrite serve_all_enqueue
      by (apply enqueue_append; [done|by apply deduplicate_progress_other]).
    cbn [_queue with_queue remove_first app length].
    erewrite serve_all_enqueue by (by apply enqueue_progress_setvalue).
    cbn [_queue with_queue remove_first app length TerminationFlag hashOf].
    rewrite (Hyes p1) by done.
    done.
Qed.

(** ** View cursors *)

Lemma same_view_sym a b : same_view a b = same_view b a.
Proof.
  unfold same_view.
  destruct (json_viewId (jsonString a)), (json_viewId (jsonString b)); try done.
  apply bool_decide_ext. split; congruence.
Qed.

Lemma same_view_trans a b c :
  same_view a b = true -> same_view a c = true -> same_view b c = true.
Proof.
  unfold same_view.
  destruct (json_viewId (jsonString a)), (json_viewId (jsonString b)),
    (json_viewId (jsonString c)); try done.
  rewrite !bool_decide_eq_true. congruence.
Qed.

Lemma view_match_same_view item viewId cur :
  json_viewId (jsonString item) = Returns viewId ->
  firstToken cur = "invalidateviewcursor:" ->
  view_match viewId cur = same_view item cur.
Proof.
  intros Hid Htok. unfold view_match, same_view, firstTokenMatches.
  rewrite bool_decide_eq_true_2 by done. by rewrite Hid.
Qed.

Lemma keep_latest_elem_of x msgs : x ∈ keep_latest msgs -> x ∈ msgs.
Proof.
  induction msgs as [|m msgs IH]; simpl; [done|].
  destruct (existsb (same_view m) msgs).
  - intros Hx. apply elem_of_cons. auto.
  - rewrite !elem_of_cons. intros [->|Hx]; auto.
Qed.

Lemma keep_latest_distinct msgs : distinct_views (keep_latest msgs).
Proof.
  induction msgs as [|m msgs IH]; simpl; [done|].
  destruct (existsb (same_view m) msgs) eqn:Hex; [done|].
  split; [|done]. apply Forall_forall. intros y Hy.
  apply keep_latest_elem_of in Hy.
  destruct (same_view m y) eqn:Hmy; [|done].
  assert (existsb (same_view m) msgs = true) as Hcontra; [|congruence].
  apply existsb_exists. exists y. split; [by apply list_elem_of_In|done].
Qed.

Lemma keep_latest_snoc msgs m :
  keep_latest (msgs ++ [m])
  = filter (fun x => same_view m x = false) (keep_latest msgs) ++ [m].
Proof.
  induction msgs as [|x msgs IH]; simpl; [done|].
  rewrite existsb_app. simpl. rewrite orb_false_r, IH.
  destruct (existsb (same_view x) msgs); simpl; [done|].
  rewrite filter_cons. rewrite (same_view_sym m x).
  destruct (same_view x m);
    [rewrite decide_False by done|rewrite decide_True by done]; done.
Qed.

(** In a queue with one message per view, removing the first message of a
    view removes every message of that view. *)
Lemma remove_first_distinct (f : Item -> bool) m q :
  distinct_views q ->
  (forall x, x ∈ q -> f x = same_view m x) ->
  remove_first f q = filter (fun x => same_view m x = false) q.
Proof.
  induction q as [|x q IH]; simpl; [done|].
  intros [Hx Hq] Hf. rewrite filter_cons.
  rewrite (Hf x) by (apply elem_of_cons; auto).
  destruct (same_view m x) eqn:Hmx.
  - rewrite decide_False by done.
    clear IH. induction q as [|y q IH]; [done|].
    apply Forall_cons in Hx as [Hxy Hx]. destruct Hq as [_ Hq].
    rewrite filter_cons, decide_True.
    + f_equal. apply IH; auto. intros z Hz. apply Hf.
      rewrite !elem_of_cons in *. tauto.
    + destruct (same_view m y) eqn:Hmy; [|done].
      by rewrite (same_view_trans m x y) in Hxy.
  - rewrite decide_True by done. f_equal. apply IH; [done|].
    intros z Hz. apply Hf. apply elem_of_cons; auto.
Qed.

Lemma enqueue_viewcursor item viewId (s : state) :
  TerminationFlag s = false ->
  firstToken item = "invalidateviewcursor:" ->
  json_viewId (jsonString item) = Returns viewId ->
  Forall view_parseable (_queue s) ->
  enqueue item s
  = (with_queue s (remove_first (view_match viewId) (_queue s) ++ [item]),
     Returns (S (length (remove_first (view_match viewId) (_queue s))))).
Proof.
  intros Hflag Htok Hid Hq.
  by rewrite (enqueue_returns _ _ _ Hflag (deduplicate_viewcursor _ _ _ Htok Hid Hq)).
Qed.

Lemma serve_all_app rs1 rs2 (s s1 s2 : state) a1 a2 :
  serve_all rs1 s = (s1, Returns a1) ->
  serve_all rs2 s1 = (s2, Returns a2) ->
  serve_all (rs1 ++ rs2) s = (s2, Returns (a1 ++ a2)).
Proof.
  revert s a1. induction rs1 as [|r rs1 IH]; intros s a1; simpl.
  { intros [= <- <-]. done. }
  unfold bind at 1 3. destruct (serve r s) as [s0 [a|e]]; [|done].
  unfold bind.
  destruct (serve_all rs1 s0) as [s0' [a0|e]] eqn:Hrs1; [|done].
  unfold ret. intros [= <- <-] H2. by rewrite (IH _ _ Hrs1 H2).
Qed.

(** View cursor messages enqueued into an empty queue leave the latest
    message of every view. *)
Lemma serve_all_views (msgs : list Item) (s : state) :
  TerminationFlag s = false -> _queue s = [] ->
  Forall view_message msgs ->
  exists answers,
    serve_all (map Enqueue msgs) s
    = (with_queue s (keep_latest msgs), Returns answers).
Proof.
  intros Hflag Hq. induction msgs as [|m msgs IH] using rev_ind; intros Hall.
  { exists []. simpl. unfold ret. by rewrite <- Hq, with_queue_same. }
  apply Forall_app in Hall as [Hmsgs Hm]. apply Forall_cons in Hm as [[Htok Hid] _].
  destruct (IH Hmsgs) as [answers Hrun].
  destruct (json_viewId (jsonString m)) as [viewId|] eqn:Hview; [|done].
  assert (Forall view_message (keep_latest msgs)) as Hkl.
  { apply Forall_forall. intros x Hx. apply keep_latest_elem_of in Hx.
    by eapply Forall_forall in Hmsgs. }
  eexists. rewrite map_app. eapply serve_all_app; [exact Hrun|].
  change (map Enqueue [m]) with [Enqueue m].
  erewrite serve_all_enqueue.
  2:{ apply enqueue_viewcursor; try done. simpl.
      eapply Forall_impl; [exact Hkl|]. by intros x [_ Hx] _. }
  simpl. unfold ret. rewrite keep_latest_snoc. do 3 f_equal.
  apply remove_first_distinct; [apply keep_latest_distinct|].
  intros x Hx. apply view_match_same_view; [done|].
  eapply Forall_forall in Hkl as [? _]; done.
Qed.

(** C7 (view-cursor isolation).  An [invalidateviewcursor:] message removes
    the first queued [invalidateviewcursor:] message with its own view id,
    and no message of another view, then is appended; with no message of
    its view queued it is only appended.  Any sequence of such messages,
    views interleaved at will, enqueued into an empty queue leaves exactly
    the latest message of every view. *)
Theorem view_cursor_isolation :
  (forall (s : state) item viewId,
      TerminationFlag s = false ->
      firstToken item = "invalidateviewcursor:" ->
      json_viewId (jsonString item) = Returns viewId ->
      Forall view_parseable (_queue s) ->
      (forall q1 old q2,
          _queue s = q1 ++ old :: q2 ->
          Forall (fun m => view_match viewId m = false) q1 ->
          view_match viewId old = true ->
          enqueue item s
          = (with_queue s (q1 ++ q2 ++ [item]), Returns (length (_queue s))))
      /\ (Forall (fun m => view_match viewId m = false) (_queue s) ->
          enqueue item s
          = (with_queue s (_queue s ++ [item]), Returns (S (length (_queue s))))))
  /\ (forall (s : state) msgs,
        TerminationFlag s = false -> _queue s = [] ->
        Forall view_message msgs ->
        exists answers,
          serve_all (map Enqueue msgs) s
          = (with_queue s (keep_latest msgs), Returns answers)).
Proof.
  split; [|intros s msgs; apply serve_all_views].
  intros s item viewId Hflag Htok Hid Hq.
  rewrite (enqueue_viewcursor _ _ _ Hflag Htok Hid Hq). split.
  - intros q1 old q2 Hsplit Hq1 Hold. rewrite Hsplit.
    rewrite (remove_first_middle _ _ _ _ Hq1 Hold).
    rewrite <- app_assoc. do 2 f_equal. rewrite !length_app. simpl. lia.
  - intros Hnone. by rewrite remove_first_none.
Qed.

(** ** FIFO order and shutdown *)

(** C2, as the code has it (FIFO baseline).  With the termination flag
    clear, messages that are well-formed (they parse, as the producer
    contract requires) and of which none supersedes an earlier one (the
    queued ones included) go through the queue as through a plain FIFO
    queue, for every
    interleaving of enqueue, dequeue and size calls: no call throws, every
    answer is the plain queue's, and the messages returned by the dequeue
    calls followed by those still queued are the messages enqueued, in
    enqueue order.  Enqueuing them all and dequeuing as many times returns
    exactly the enqueued sequence. *)
Theorem fifo_baseline (rs : list (request Item)) (s : state) :
  TerminationFlag s = false ->
  Forall parseable (_queue s ++ enqueued rs) ->
  non_interacting (_queue s ++ enqueued rs) ->
  exists s' answers,
    serve_all rs s = (s', Returns answers)
    /\ answers = fifo_answers (_queue s) rs
    /\ _queue s' = fifo_queue (_queue s) rs
    /\ _queue s ++ enqueued rs = delivered answers ++ _queue s'
    /\ (forall msgs,
          _queue s = [] ->
          rs = map Enqueue msgs ++ replicate (length msgs) Dequeue ->
          delivered answers = msgs /\ _queue s' = []).
Proof.
  intros Hflag Hwf Hni.
  destruct (serve_all_fifo rs s Hflag Hwf Hni) as (s' & Hrun & Hq' & _).
  exists s', (fifo_answers (_queue s) rs).
  split; [done|]. split; [done|]. split; [done|]. split.
  { rewrite Hq'. apply fifo_order. }
  intros msgs Hempty ->. rewrite Hq', Hempty.
  apply fifo_drain.
Qed.

(** C3 (shutdown idempotence).  Once the termination flag is set, any
    sequence of calls leaves the whole state, the queue included, as it was:
    every enqueue and size call returns the unchanged length, every dequeue
    call returns no message. *)
Theorem shutdown_idempotence (rs : list (request Item)) (s : state) :
  TerminationFlag s = true ->
  serve_all rs s
  = (s, Returns (map (fun r => match r with
                               | Dequeue => Dequeued None
                               | Enqueue _ | Size => QueueLength (length (_queue s))
                               end) rs)).
Proof.
  intros Hflag. induction rs as [|r rs IH]; [done|].
  simpl. unfold bind at 1.
  assert (serve r s = (s, Returns match r with
                                  | Dequeue => Dequeued None
                                  | Enqueue _ | Size => QueueLength (length (_queue s))
                                  end)) as ->.
  { destruct r as [item| |]; simpl; unfold bind.
    - by rewrite enqueue_terminated.
    - by rewrite dequeue_terminated.
    - by rewrite size_run. }
  unfold bind. by rewrite IH.
Qed.

(** ** Exceptions out of enqueue *)

(** C10 (enqueue is atomic under a dedup exception).  When [deduplicate]
    throws on the incoming message, [enqueue] throws the same exception
    before the append: the deque and the termination flag are as before the
    call, nothing was removed and the message was not appended; of the
    cached hashes only the incoming message's own may have been written. *)
Theorem enqueue_exception_atomic item e (s s' : state) :
  TerminationFlag s = false ->
  deduplicate item s = (s', Throws e) ->
  enqueue item s = (s', Throws e)
  /\ _queue s' = _queue s
  /\ TerminationFlag s' = TerminationFlag s
  /\ (forall other, other <> item -> hashOf s' other = hashOf s other).
Proof.
  intros Hflag Hthrow. split; [by apply enqueue_throws|].
  by apply deduplicate_throws_frame in Hthrow.
Qed.

(** C4, as the code has it (malformed payload).  A [tile:] message whose
    first line does not parse, or an [invalidateviewcursor:] message whose
    payload yields no view id, makes [enqueue] throw the parser's exception:
    the state is untouched, so no queued entry is removed, the message is
    not appended and no length is returned. *)
Theorem malformed_payload_throws item e (s : state) :
  TerminationFlag s = false ->
  (firstToken item = "tile:" /\ TileDesc_parse (firstLine item) = Throws e)
  \/ (firstToken item = "invalidateviewcursor:"
      /\ json_viewId (jsonString item) = Throws e) ->
  enqueue item s = (s, Throws e).
Proof.
  intros Hflag [[Htok Hparse]|[Htok Hparse]]; apply enqueue_throws; try done.
  - by apply deduplicate_tile_throws.
  - by apply deduplicate_viewcursor_throws.
Qed.

(** ** dumpState *)

Lemma type_lines_app r1 r2 : type_lines (r1 ++ r2) = type_lines r1 ++ type_lines r2.
Proof. apply omap_app. Qed.

Lemma repeats_total_app r1 r2 :
  repeats_total (r1 ++ r2) = (repeats_total r1 + repeats_total r2)%nat.
Proof.
  induction r1 as [|l r1 IH]; simpl; [done|]. rewrite IH. destruct l; lia.
Qed.

Lemma dump_item_spec (st : dump_locals) item :
  type_lines (os (dump_item st item))
  = type_lines (os st) ++ (if collapsed (lastStr st) item then [] else [entry item])
  /\ lastStr (dump_item st item) = abbreviation item
  /\ totalSize (dump_item st item) = (totalSize st + msgSize item)%nat
  /\ (length (type_lines (os (dump_item st item)))
      + repeats_total (os (dump_item st item)) + repeats (dump_item st item)
      = S (length (type_lines (os st)) + repeats_total (os st) + repeats st))%nat.
Proof.
  unfold dump_item, collapsed. fold (abbreviation item).
  destruct (bool_decide (lastStr st = abbreviation item) && negb (isBinary item)).
  - simpl. rewrite app_nil_r. repeat split; try done; try lia.
  - destruct (0 <? repeats st)%nat eqn:Hrep; simpl.
    + rewrite !type_lines_app, !length_app, !repeats_total_app. simpl.
      rewrite app_nil_r. repeat split; try done; try lia.
    + apply Nat.ltb_ge in Hrep.
      replace (repeats st =? 0)%nat with true by (symmetry; apply Nat.eqb_eq; lia).
      rewrite !type_lines_app, !length_app, !repeats_total_app. simpl.
      repeat split; try done; try lia.
Qed.

(** The loop of [dumpState] after the queue [q ++ [item]], from the loop
    after [q]. *)
Lemma dump_loop_snoc (st0 : dump_locals) q item :
  foldl dump_item st0 (q ++ [item]) = dump_item (foldl dump_item st0 q) item.
Proof. apply foldl_snoc. Qed.

Lemma dump_loop_lastStr (st0 : dump_locals) q :
  lastStr st0 = "" ->
  lastStr (foldl dump_item st0 q) = last_abbreviation q.
Proof.
  intros H0'. destruct q as [|x q _] using rev_ind; [done|].
  rewrite dump_loop_snoc. unfold last_abbreviation. rewrite last_snoc.
  apply dump_item_spec.
Qed.

Lemma dump_loop_type_lines (os1 os2 : list report_line) r l t q :
  type_lines os1 = type_lines os2 ->
  type_lines (os (foldl dump_item (mkDump os1 r l t) q))
  = type_lines (os (foldl dump_item (mkDump os2 r l t) q))
  /\ lastStr (foldl dump_item (mkDump os1 r l t) q)
    = lastStr (foldl dump_item (mkDump os2 r l t) q).
Proof.
  intros Hos. induction q as [|x q [IH1 IH2]] using rev_ind; [done|].
  rewrite !dump_loop_snoc.
  destruct (dump_item_spec (foldl dump_item (mkDump os1 r l t) q) x) as (-> & -> & _).
  destruct (dump_item_spec (foldl dump_item (mkDump os2 r l t) q) x) as (-> & -> & _).
  by rewrite IH1, IH2.
Qed.

Lemma dump_report_type_lines q :
  type_lines (dump_report q)
  = type_lines (os (foldl dump_item (mkDump [] 0 "" 0) q)).
Proof.
  unfold dump_report.
  set (st := foldl dump_item (mkDump [QueueItems (length q)] 0 "" 0) q).
  assert (type_lines (os st) = type_lines (os (foldl dump_item (mkDump [] 0 "" 0) q)))
    as <- by (by apply dump_loop_type_lines).
  destruct (0 <? repeats st)%nat; rewrite !type_lines_app; simpl;
    by rewrite !app_nil_r.
Qed.

Lemma dump_report_snoc q item :
  type_lines (dump_report (q ++ [item]))
  = type_lines (dump_report q)
    ++ (if collapsed (last_abbreviation q) item then [] else [entry item]).
Proof.
  rewrite !dump_report_type_lines, dump_loop_snoc.
  destruct (dump_item_spec (foldl dump_item (mkDump [] 0 "" 0) q) item) as (-> & _).
  by rewrite dump_loop_lastStr.
Qed.

Lemma dump_report_binary q :
  filter (fun e => e.1.1 = true) (type_lines (dump_report q))
  = map entry (filter (fun item => isBinary item = true) q).
Proof.
  induction q as [|x q IH] using rev_ind; [done|].
  rewrite dump_report_snoc, !filter_app, map_app, IH. f_equal.
  unfold collapsed. rewrite filter_cons.
  destruct (isBinary x) eqn:Hbin.
  - rewrite andb_false_r, decide_True by done.
    rewrite filter_cons, decide_True by done. done.
  - rewrite decide_False by congruence.
    destruct (bool_decide _ && _); [done|].
    rewrite filter_cons, decide_False; [done|]. simpl. congruence.
Qed.

Lemma dump_loop_count (st0 : dump_locals) q :
  let st := foldl dump_item st0 q in
  (length (type_lines (os st)) + repeats_total (os st) + repeats st
   = length q + (length (type_lines (os st0)) + repeats_total (os st0) + repeats st0))%nat
  /\ totalSize st = (totalSize st0 + foldr (fun item n => msgSize item + n) 0 q)%nat.
Proof.
  induction q as [|x q [IH1 IH2]] using rev_ind; simpl; [split; lia|].
  rewrite dump_loop_snoc.
  destruct (dump_item_spec (foldl dump_item st0 q) x) as (_ & _ & -> & ->).
  rewrite length_app, foldr_app. simpl. rewrite IH1, IH2. split; [lia|].
  clear. revert x. induction q as [|y q IH]; intros x; simpl; [lia|].
  specialize (IH x). lia.
Qed.

Lemma dump_loop_head q (st0 : dump_locals) l rest0 :
  os st0 = l :: rest0 -> exists rest, os (foldl dump_item st0 q) = l :: rest.
Proof.
  intros H0'. induction q as [|x q [rest IH]] using rev_ind; [by eexists|].
  rewrite dump_loop_snoc. set (st := foldl dump_item st0 q) in *.
  unfold dump_item. rewrite IH.
  repeat (match goal with |- context [if ?b then _ else _] => destruct b end;
          simpl; eauto).
Qed.

(** Every message is either listed or counted by a repeats marker; the
    report starts with the message count and ends with the byte total. *)
Lemma dump_report_totals q :
  (length (type_lines (dump_report q)) + repeats_total (dump_report q))%nat = length q
  /\ head (dump_report q) = Some (QueueItems (length q))
  /\ last (dump_report q)
    = Some (QueueBytes (foldr (fun item n => msgSize item + n)%nat 0%nat q)).
Proof.
  unfold dump_report.
  set (st0 := mkDump [QueueItems (length q)] 0 "" 0).
  destruct (dump_loop_count st0 q) as [Hcount Hsize]. simpl in Hcount, Hsize.
  set (st := foldl dump_item st0 q) in *.
  destruct (dump_loop_head q st0 (QueueItems (length q)) [] eq_refl) as [rest Hos].
  fold st in Hos.
  rewrite last_snoc, Hsize. split; [|split; [|done]].
  - destruct (0 <? repeats st)%nat eqn:Hrep;
      rewrite !type_lines_app, !length_app, !repeats_total_app; simpl.
    + lia.
    + apply Nat.ltb_ge in Hrep. lia.
  - rewrite Hos. by destruct (0 <? repeats st)%nat.
Qed.

(** The lines of the loop do not depend on what the stream held before. *)
Lemma dump_item_prefix (os0 : list report_line) (st : dump_locals) item :
  dump_item (mkDump (os0 ++ os st) (repeats st) (lastStr st) (totalSize st)) item
  = mkDump (os0 ++ os (dump_item st item)) (repeats (dump_item st item))
      (lastStr (dump_item st item)) (totalSize (dump_item st item)).
Proof.
  unfold dump_item. simpl.
  destruct (bool_decide _ && negb _); simpl.
  - done.
  - destruct (0 <? repeats st)%nat; simpl.
    + by rewrite <- !app_assoc.
    + destruct (repeats st =? 0)%nat; by rewrite <- ?app_assoc.
Qed.

Lemma dump_loop_prefix (os0 : list report_line) (st : dump_locals) q :
  foldl dump_item
    (mkDump (os0 ++ os st) (repeats st) (lastStr st) (totalSize st)) q
  = mkDump (os0 ++ os (foldl dump_item st q)) (repeats (foldl dump_item st q))
      (lastStr (foldl dump_item st q)) (totalSize (foldl dump_item st q)).
Proof.
  induction q as [|x q IH] using rev_ind; [done|].
  by rewrite !dump_loop_snoc, IH, dump_item_prefix.
Qed.

Lemma dump_item_no_trailing_marker (st : dump_locals) item :
  no_trailing_marker (os st) -> no_trailing_marker (os (dump_item st item)).
Proof.
  intros Hos. unfold dump_item.
  destruct (bool_decide _ && negb _); simpl; [done|].
  unfold no_trailing_marker.
  destruct (0 <? repeats st)%nat; simpl.
  - by rewrite last_snoc.
  - destruct (repeats st =? 0)%nat; [by rewrite last_snoc|done].
Qed.

Lemma dump_loop_no_trailing_marker q :
  no_trailing_marker (os (foldl dump_item (mkDump [] 0 "" 0) q)).
Proof.
  induction q as [|x q IH] using rev_ind; [done|].
  rewrite dump_loop_snoc. by apply dump_item_no_trailing_marker.
Qed.

(** The report is the count, the lines of the loop with the marker still
    pending, and the byte total. *)
Lemma dump_report_body q :
  dump_report q
  = QueueItems (length q)
    :: (os (foldl dump_item (mkDump [] 0 "" 0) q)
        ++ pending_marker (repeats (foldl dump_item (mkDump [] 0 "" 0) q)))
    ++ [QueueBytes (foldr (fun item n => msgSize item + n)%nat 0%nat q)].
Proof.
  unfold dump_report.
  pose proof (dump_loop_prefix [QueueItems (length q)] (mkDump [] 0 "" 0) q) as Hpre.
  simpl in Hpre. rewrite Hpre. simpl.
  destruct (dump_loop_count (mkDump [] 0 "" 0) q) as [_ ->]. simpl.
  unfold pending_marker.
  destruct (0 <? repeats (foldl dump_item (mkDump [] 0 "" 0) q))%nat; simpl;
    by rewrite ?app_nil_r.
Qed.

Lemma report_body_loop q :
  report_body q
  = os (foldl dump_item (mkDump [] 0 "" 0) q)
    ++ pending_marker (repeats (foldl dump_item (mkDump [] 0 "" 0) q)).
Proof.
  unfold report_body. rewrite dump_report_body. simpl.
  apply removelast_last.
Qed.

Lemma count_repeat_pending (lines : list report_line) r :
  no_trailing_marker lines ->
  count_repeat (lines ++ pending_marker r) = lines ++ [RepeatsLine (S r)].
Proof.
  intros Hlines. unfold pending_marker, count_repeat.
  destruct r as [|r]; simpl.
  - rewrite app_nil_r. unfold no_trailing_marker in Hlines.
    destruct (last lines) as [[]|]; done.
  - by rewrite last_snoc, removelast_last.
Qed.

(** The lines of the report after one more message. *)
Lemma report_body_snoc q item :
  report_body (q ++ [item])
  = if collapsed (last_abbreviation q) item
    then count_repeat (report_body q)
    else report_body q ++ [TypeLine (isBinary item) (id item) (abbreviation item)].
Proof.
  rewrite !report_body_loop, dump_loop_snoc.
  pose proof (dump_loop_no_trailing_marker q) as Hos.
  pose proof (dump_loop_lastStr (mkDump [] 0 "" 0) q eq_refl) as Hlast.
  set (st := foldl dump_item (mkDump [] 0 "" 0) q) in *.
  rewrite <- Hlast. unfold dump_item, collapsed. fold (abbreviation item).
  destruct (bool_decide (lastStr st = abbreviation item) && negb (isBinary item)).
  - simpl. by rewrite count_repeat_pending.
  - unfold pending_marker at 2. destruct (0 <? repeats st)%nat eqn:Hrep; simpl.
    + unfold pending_marker. simpl. by rewrite app_nil_r.
    + apply Nat.ltb_ge in Hrep.
      replace (repeats st =? 0)%nat with true by (symmetry; apply Nat.eqb_eq; lia).
      simpl. replace (repeats st) with 0%nat by lia.
      unfold pending_marker. simpl. by rewrite !app_nil_r.
Qed.


End Properties.

(** * Further properties of the queue operations *)

Section Coverage.
Context {Item : Type} `{EqDecision Item} `{MessageOps Item}.
Context {exn TileDesc : Type} `{Externals exn TileDesc}.

Local Abbreviation M := (M Item exn).
Local Abbreviation state := (state Item).
Local Abbreviation dequeue := (@dequeue Item exn).
Local Abbreviation size := (@size Item exn).
Local Abbreviation dumpState := (@dumpState Item _ exn TileDesc _).

#[global] Instance plain_token_dec command : Decision (plain_token command).
Proof. unfold plain_token. apply _. Defined.

(** [operator==] of [TileDesc] relates descriptors equal to a common one. *)
Definition TileDesc_eq_euclidean : Prop :=
  forall a b c : TileDesc,
    TileDesc_eq a b = true -> TileDesc_eq a c = true -> TileDesc_eq c b = true.

(** The payload bytes of a queue. *)
Definition queue_bytes (q : list Item) : nat :=
  foldr (fun item n => msgSize item + n)%nat 0%nat q.

Ltac choose_branch :=
  repeat first
    [ rewrite decide_True by (simpl; auto; congruence)
    | rewrite decide_False by (simpl; intuition congruence) ].

(** ** What a search that returns has found *)

Lemma find_if_from_result (pred : Item -> M bool) l i (s s' : state) pos :
  (forall cur, preserves (pred cur)) ->
  find_if_from pred l i s = (s', Returns pos) ->
  s' = s /\
  match pos with
  | Some j =>
      exists l1 cur l2,
        l = l1 ++ cur :: l2 /\ j = (i + length l1)%nat
        /\ pred cur s = (s, Returns true)
  | None => True
  end.
Proof.
  intros Hp. revert i. induction l as [|x l IH]; intros i; simpl.
  { intros [= <- <-]. done. }
  unfold bind. pose proof (Hp x s) as Hx.
  destruct (pred x s) as [s1 [b|e]] eqn:Hpx; simpl in Hx; subst s1; [|done].
  destruct b.
  - intros [= <- <-]. split; [done|]. exists [], x, l. simpl.
    split; [done|]. split; [lia|done].
  - intros Hrest. destruct (IH _ Hrest) as [-> Hpos]. split; [done|].
    destruct pos as [j|]; [|done].
    destruct Hpos as (l1 & cur & l2 & -> & -> & Hcur).
    exists (x :: l1), cur, l2. simpl. split; [done|]. split; [lia|done].
Qed.

Lemma find_erase_result (pred : Item -> M bool) (s s' : state) fresh :
  (forall cur, preserves (pred cur)) ->
  (do pos <- find_if pred; erase_if_found pos ;; ret true) s = (s', Returns fresh) ->
  fresh = true /\
  (s' = s \/
   exists q1 old q2,
     _queue s = q1 ++ old :: q2 /\ s' = with_queue s (q1 ++ q2)
     /\ pred old s = (s, Returns true)).
Proof.
  intros Hp. unfold bind at 1. unfold find_if, bind at 1, get_queue at 1.
  destruct (find_if_from pred (_queue s) 0 s) as [s1 [pos|e]] eqn:Hfind; [|done].
  destruct (find_if_from_result _ _ _ _ _ _ Hp Hfind) as [-> Hpos].
  destruct pos as [j|]; simpl.
  - destruct Hpos as (q1 & old & q2 & Hq & -> & Hold).
    unfold bind, get_queue, put_queue, ret. intros [= <- <-]. split; [done|].
    right. exists q1, old, q2. split; [done|]. split; [|done].
    unfold with_queue. f_equal. rewrite Hq. simpl. apply delete_middle.
  - unfold bind, ret. intros [= <- <-]. auto.
Qed.

(** When [deduplicate] returns it returns true, and it has erased at most
    one queued message, of the command token of the incoming one. *)
Lemma deduplicate_result item (s s' : state) fresh :
  deduplicate item s = (s', Returns fresh) ->
  fresh = true /\
  (_queue s' = _queue s \/
   exists q1 old q2,
     _queue s = q1 ++ old :: q2 /\ _queue s' = q1 ++ q2
     /\ firstToken old = firstToken item).
Proof.
  unfold deduplicate.
  destruct (decide (firstToken item = "tile:")) as [Htile|Hntile].
  { unfold bind at 1. unfold call at 1.
    destruct (TileDesc_parse (firstLine item)) as [newTile|e1]; [|done].
    unfold bind at 1. unfold setHash at 1. intros Hrun.
    apply find_erase_result in Hrun as [-> [->|(q1 & old & q2 & Hq & -> & Hold)]].
    - auto.
    - split; [done|]. right. exists q1, old, q2. simpl in *.
      split; [done|]. split; [done|]. rewrite Htile.
      revert Hold. unfold ret.
      destruct (firstTokenMatches old "tile:") eqn:Htm; simpl; [|done].
      intros _. by apply bool_decide_eq_true in Htm.
    - intros cur s0. unfold bind, getHash, call, ret.
      destruct (negb (firstTokenMatches cur "tile:")); [done|].
      destruct (negb (equalityHash newTile =? hashOf s0 cur)%Z); [done|].
      destruct (TileDesc_parse (firstLine cur)) as [t|]; [|done].
      by destruct (negb (TileDesc_eq newTile t)). }
  destruct (decide (_ \/ _)) as [Hrep|_].
  { intros Hrun.
    apply find_erase_result in Hrun as [-> [->|(q1 & old & q2 & Hq & -> & Hold)]];
      [auto| |by intros cur s0].
    split; [done|]. right. exists q1, old, q2. split; [done|]. split; [done|].
    injection Hold as Hold. by apply bool_decide_eq_true in Hold. }
  destruct (decide (firstToken item = "progress:")) as [Hprog|_].
  { destruct (contains item setvalueTag); [|intros [= <- <-]; auto].
    rewrite bind_assoc_run. intros Hrun.
    apply find_erase_result in Hrun as [-> [->|(q1 & old & q2 & Hq & -> & Hold)]];
      [auto| |by intros cur s0].
    split; [done|]. right. exists q1, old, q2. split; [done|]. split; [done|].
    injection Hold as Hold. apply andb_true_iff in Hold as [Hold _].
    by apply bool_decide_eq_true in Hold. }
  destruct (decide (firstToken item = "invalidateviewcursor:")) as [Hview|_];
    [|intros [= <- <-]; auto].
  unfold bind at 1. unfold call at 1.
  destruct (json_viewId (jsonString item)) as [viewId|e1]; [|done].
  intros Hrun.
  apply find_erase_result in Hrun as [-> [->|(q1 & old & q2 & Hq & -> & Hold)]].
  - auto.
  - split; [done|]. right. exists q1, old, q2. split; [done|]. split; [done|].
    revert Hold. unfold ret.
    destruct (firstTokenMatches old (firstToken item)) eqn:Htm; [|done].
    intros _. by apply bool_decide_eq_true in Htm.
  - intros cur s0. unfold bind, call, ret.
    destruct (firstTokenMatches cur (firstToken item)); [|done].
    by destruct (json_viewId (jsonString cur)).
Qed.

(** The same for [enqueue], with the termination flag clear. *)
Lemma enqueue_result item (s s' : state) n :
  TerminationFlag s = false ->
  enqueue item s = (s', Returns n) ->
  n = length (_queue s')
  /\ (_queue s' = _queue s ++ [item] \/
      exists q1 old q2,
        _queue s = q1 ++ old :: q2 /\ _queue s' = q1 ++ q2 ++ [item]
        /\ firstToken old = firstToken item).
Proof.
  intros Hflag Hrun.
  destruct (deduplicate item s) as [s1 [fresh|e]] eqn:Hd.
  - destruct (deduplicate_result _ _ _ _ Hd) as [-> Hshape].
    rewrite (enqueue_returns _ _ _ Hflag Hd) in Hrun.
    injection Hrun as <- <-. simpl. split.
    { rewrite length_app. simpl. lia. }
    destruct Hshape as [->|(q1 & old & q2 & Hq & -> & Hold)]; [auto|].
    right. exists q1, old, q2. by rewrite <- app_assoc.
  - by rewrite (enqueue_throws _ _ _ _ Hflag Hd) in Hrun.
Qed.

(** X1 (what a returning enqueue does).  With the termination flag clear,
    an [enqueue] that returns has put the incoming message at the tail and
    has erased at most one queued message, the others keeping their order;
    the number returned is the new length, which is the old length or one
    more. *)
Theorem enqueue_appends_at_tail item (s s' : state) n :
  TerminationFlag s = false ->
  enqueue item s = (s', Returns n) ->
  n = length (_queue s')
  /\ last (_queue s') = Some item
  /\ (length (_queue s) <= n <= S (length (_queue s)))%nat
  /\ (_queue s' = _queue s ++ [item] \/
      exists q1 old q2,
        _queue s = q1 ++ old :: q2 /\ _queue s' = q1 ++ q2 ++ [item]).
Proof.
  intros Hflag Hrun.
  destruct (enqueue_result _ _ _ _ Hflag Hrun) as [-> Hshape].
  split; [done|].
  destruct Hshape as [Hq|(q1 & old & q2 & Hq & Hq' & _)].
  - rewrite Hq, last_snoc, length_app. simpl.
    split; [done|]. split; [lia|auto].
  - rewrite Hq', Hq, app_assoc, last_snoc, !length_app. simpl.
    split; [done|]. split; [lia|]. right. exists q1, old, q2.
    by rewrite <- app_assoc.
Qed.

(** An [enqueue], whatever its outcome, leaves the termination flag alone
    and the queue either as it was or as [enqueue_result] says. *)
Lemma enqueue_outcome item (s s' : state) r :
  enqueue item s = (s', r) ->
  TerminationFlag s' = TerminationFlag s /\
  (_queue s' = _queue s \/
   (TerminationFlag s = false /\ exists n, r = Returns n
    /\ enqueue item s = (s', Returns n))).
Proof.
  intros Hrun. destruct (TerminationFlag s) eqn:Hflag.
  - rewrite (enqueue_terminated _ _ Hflag) in Hrun. injection Hrun as <- _. auto.
  - destruct (deduplicate item s) as [s1 [fresh|e]] eqn:Hd.
    + destruct (deduplicate_frame _ _ _ _ Hd) as (Hf & _).
      destruct (deduplicate_result _ _ _ _ Hd) as [-> _].
      pose proof (enqueue_returns _ _ _ Hflag Hd) as Hret.
      rewrite Hret in Hrun. injection Hrun as <- <-. simpl.
      split; [congruence|]. right. split; [done|]. eexists. split; [done|].
      exact Hret.
    + rewrite (enqueue_throws _ _ _ _ Hflag Hd) in Hrun. injection Hrun as <- _.
      destruct (deduplicate_throws_frame _ _ _ _ Hd) as (Hq & Hf & _).
      split; [congruence|auto].
Qed.

(** X2 (dedup stays within a command token).  Whatever its outcome, an
    [enqueue] leaves the queued messages of every other command token than
    the incoming one as they were, in number and in order. *)
Theorem enqueue_spares_other_tokens item (s s' : state) r :
  enqueue item s = (s', r) ->
  filter (fun m => firstToken m <> firstToken item) (_queue s')
  = filter (fun m => firstToken m <> firstToken item) (_queue s).
Proof.
  intros Hrun.
  destruct (enqueue_outcome _ _ _ _ Hrun) as [_ [->|(Hflag & n & -> & _)]]; [done|].
  destruct (enqueue_result _ _ _ _ Hflag Hrun)
    as [_ [->|(q1 & old & q2 & -> & -> & Hold)]].
  - rewrite filter_app, filter_cons, decide_False by (intros Hne; by apply Hne).
    by rewrite app_nil_r.
  - rewrite !filter_app, !filter_cons.
    rewrite decide_False by (intros Hne; by apply Hne).
    rewrite decide_False by (intros Hne; by apply Hne).
    by rewrite app_nil_r.
Qed.

(** ** Plain traffic *)

Lemma serve_all_enqueue_inv item rs (s s' : state) answers :
  serve_all (Enqueue item :: rs) s = (s', Returns answers) ->
  exists s1 n rest,
    enqueue item s = (s1, Returns n)
    /\ serve_all rs s1 = (s', Returns rest)
    /\ answers = QueueLength n :: rest.
Proof.
  simpl. unfold bind at 1 2.
  destruct (enqueue item s) as [s1 [n|e]]; [|done].
  unfold ret at 1, bind.
  destruct (serve_all rs s1) as [s2 [rest|e]] eqn:Hrest; [|done].
  unfold ret. intros [= <- <-]. by exists s1, n, rest.
Qed.

Lemma enqueue_plain_subsequence item (s s' : state) n :
  TerminationFlag s = false ->
  enqueue item s = (s', Returns n) ->
  filter (fun m => plain_token (firstToken m)) (_queue s')
  = filter (fun m => plain_token (firstToken m)) (_queue s)
    ++ filter (fun m => plain_token (firstToken m)) [item].
Proof.
  intros Hflag Hrun.
  destruct (decide (plain_token (firstToken item))) as [Hplain|Hnplain].
  { rewrite (enqueue_append _ _ Hflag (deduplicate_plain _ _ Hplain)) in Hrun.
    injection Hrun as <- _. simpl. by rewrite filter_app. }
  destruct (enqueue_result _ _ _ _ Hflag Hrun)
    as [_ [->|(q1 & old & q2 & -> & -> & Hold)]].
  { by rewrite filter_app. }
  rewrite app_assoc, !filter_app. f_equal.
  rewrite filter_cons, decide_False by (by rewrite Hold). done.
Qed.

(** X3 (plain traffic is not disturbed).  In a run of [enqueue] calls that
    all return, with the termination flag clear, the messages whose command
    token has no dedup rule are all kept, in arrival order, behind the ones
    of that kind already queued, whatever the other messages coalesce. *)
Theorem plain_messages_kept_in_order msgs (s s' : state) answers :
  TerminationFlag s = false ->
  serve_all (map Enqueue msgs) s = (s', Returns answers) ->
  filter (fun m => plain_token (firstToken m)) (_queue s')
  = filter (fun m => plain_token (firstToken m)) (_queue s)
    ++ filter (fun m => plain_token (firstToken m)) msgs.
Proof.
  revert s answers. induction msgs as [|m msgs IH]; intros s answers Hflag; simpl.
  { intros [= <- _]. by rewrite app_nil_r. }
  intros Hrun.
  apply (serve_all_enqueue_inv m (map Enqueue msgs)) in Hrun
    as (s1 & n & rest & Hm & Hrest & _).
  destruct (enqueue_outcome _ _ _ _ Hm) as [Hflag1 _].
  rewrite (IH s1 rest) by (done || congruence).
  rewrite (enqueue_plain_subsequence _ _ _ _ Hflag Hm), <- app_assoc.
  f_equal. by rewrite (filter_app _ [m] msgs).
Qed.

(** ** The states the queue reaches *)

(** X4 (what every reachable queue satisfies).  Starting from a state whose
    queued tile messages carry the hash of their own descriptor and whose
    queued view cursor messages parse (an empty queue is one), every run of
    calls, ended by an exception or not, leads to such a state: every queued
    [tile:] message parses and has its descriptor's hash cached, every queued
    [invalidateviewcursor:] message yields a view id. *)
Theorem reachable_queue_is_parsed rs (s s' : state) r :
  hash_cached s ->
  Forall view_parseable (_queue s) ->
  serve_all rs s = (s', r) ->
  hash_cached s' /\ Forall parseable (_queue s').
Proof.
  intros Hc Hv Hrun.
  pose proof (hash_cached_serve_all _ _ _ _ Hc Hrun) as Hc'.
  pose proof (view_parseable_serve_all _ _ _ _ Hv Hrun) as Hv'.
  split; [done|].
  pose proof (hash_cached_parseable _ Hc') as Ht'.
  rewrite Forall_forall in *. intros m Hm. split; auto.
Qed.

Lemma enqueue_returned_parseable item (s s' : state) n :
  TerminationFlag s = false ->
  enqueue item s = (s', Returns n) -> parseable item.
Proof.
  intros Hflag Hrun.
  destruct (deduplicate item s) as [s1 [fresh|e]] eqn:Hd;
    [|by rewrite (enqueue_throws _ _ _ _ Hflag Hd) in Hrun].
  split; [|by eapply deduplicate_returns_view].
  intros Htok.
  destruct (deduplicate_frame _ _ _ _ Hd)
    as (_ & _ & [[Hne _]|[_ [[_ Hthrow]|(newTile & -> & _)]]]); done.
Qed.

Lemma enqueue_parseable_returns item (s : state) :
  TerminationFlag s = false ->
  Forall tile_parseable (_queue s) ->
  Forall view_parseable (_queue s) ->
  parseable item ->
  exists s' n, enqueue item s = (s', Returns n).
Proof.
  intros Hflag Hqt Hqv [Htp Hvp].
  destruct (decide (firstToken item = "tile:")) as [Htile|Hntile].
  { specialize (Htp Htile).
    destruct (TileDesc_parse (firstLine item)) as [newTile|] eqn:Hparse; [|done].
    eexists _, _.
    apply (enqueue_returns _ _ _ Hflag (deduplicate_tile _ _ _ Htile Hparse Hqt)). }
  destruct (decide (firstToken item = "invalidatecursor:"
                    \/ firstToken item = "setpart:")) as [Hrep|Hnrep].
  { eexists _, _. apply (enqueue_returns _ _ _ Hflag (deduplicate_replace _ _ Hrep)). }
  destruct (decide (firstToken item = "progress:")) as [Hprog|Hnprog].
  { destruct (contains item setvalueTag) eqn:Htag; eexists _, _.
    - apply (enqueue_returns _ _ _ Hflag
               (deduplicate_progress_setvalue _ _ Hprog Htag)).
    - apply (enqueue_returns _ _ _ Hflag (deduplicate_progress_other _ _ Hprog Htag)). }
  destruct (decide (firstToken item = "invalidateviewcursor:")) as [Hview|Hnview].
  { specialize (Hvp Hview).
    destruct (json_viewId (jsonString item)) as [viewId|] eqn:Hid; [|done].
    eexists _, _.
    apply (enqueue_returns _ _ _ Hflag (deduplicate_viewcursor _ _ _ Hview Hid Hqv)). }
  eexists _, _. apply (enqueue_returns _ _ s Hflag).
  apply deduplicate_plain. unfold plain_token. tauto.
Qed.

(** X5 (where exceptions come from).  In a state the queue can reach, with
    the termination flag clear, [enqueue] returns exactly when the incoming
    message is well-formed: an exception out of [enqueue] is always the
    parse failure of the incoming message, never of a queued one. *)
Theorem enqueue_returns_iff_parseable item (s : state) :
  TerminationFlag s = false ->
  hash_cached s ->
  Forall view_parseable (_queue s) ->
  returned (enqueue item s).2 <-> parseable item.
Proof.
  intros Hflag Hc Hv. split.
  - destruct (enqueue item s) as [s' [n|e]] eqn:Hrun; [|done].
    intros _. by eapply enqueue_returned_parseable.
  - intros Hitem.
    destruct (enqueue_parseable_returns item s Hflag
                (hash_cached_parseable _ Hc) Hv Hitem) as (s' & n & ->).
    done.
Qed.

(** ** The dedup table, and the invariant it keeps *)

Lemma supersedes_tile item newTile cur :
  firstToken item = "tile:" ->
  TileDesc_parse (firstLine item) = Returns newTile ->
  supersedes item cur = same_tile newTile cur.
Proof.
  intros Htok Hparse. unfold supersedes, same_tile. choose_branch.
  rewrite Hparse. by destruct (TileDesc_parse (firstLine cur)).
Qed.

Lemma supersedes_replace item cur :
  firstToken item = "invalidatecursor:" \/ firstToken item = "setpart:" ->
  supersedes item cur = token_match (firstToken item) cur.
Proof.
  intros Htok. unfold supersedes.
  rewrite decide_False by (destruct Htok as [Ht|Ht]; rewrite Ht; done).
  by rewrite decide_True.
Qed.

Lemma supersedes_progress item cur :
  firstToken item = "progress:" ->
  supersedes item cur = contains item setvalueTag && progress_match cur.
Proof.
  intros Htok. unfold supersedes, progress_match. choose_branch.
  rewrite Htok. by rewrite andb_assoc.
Qed.

Lemma supersedes_view item viewId cur :
  firstToken item = "invalidateviewcursor:" ->
  json_viewId (jsonString item) = Returns viewId ->
  supersedes item cur = view_match viewId cur.
Proof.
  intros Htok Hid. unfold supersedes, view_match. choose_branch.
  rewrite Htok, Hid. by destruct (json_viewId (jsonString cur)).
Qed.

Lemma supersedes_plain item cur :
  plain_token (firstToken item) -> supersedes item cur = false.
Proof. intros (? & ? & ? & ? & ?). unfold supersedes. by choose_branch. Qed.

(** In a reachable state [enqueue] erases the first queued message the
    incoming one supersedes by the dedup table, and appends. *)
Lemma enqueue_supersedes item (s : state) :
  TerminationFlag s = false ->
  hash_respects_eq ->
  hash_cached s ->
  Forall view_parseable (_queue s) ->
  parseable item ->
  exists s',
    enqueue item s
    = (s', Returns (S (length (remove_first (supersedes item) (_queue s)))))
    /\ _queue s' = remove_first (supersedes item) (_queue s) ++ [item].
Proof.
  intros Hflag Hhash Hc Hqv [Htp Hvp].
  pose proof (hash_cached_parseable _ Hc) as Hqt.
  destruct (decide (firstToken item = "tile:")) as [Htile|Hntile].
  { specialize (Htp Htile).
    destruct (TileDesc_parse (firstLine item)) as [newTile|] eqn:Hparse; [|done].
    eexists.
    rewrite (enqueue_returns _ _ _ Hflag (deduplicate_tile _ _ _ Htile Hparse Hqt)).
    simpl.
    rewrite (remove_first_ext _ (supersedes item)); [done|].
    intros cur Hcur. rewrite (supersedes_tile _ _ _ Htile Hparse).
    by apply tile_match_same_tile. }
  destruct (decide (firstToken item = "invalidatecursor:"
                    \/ firstToken item = "setpart:")) as [Hrep|Hnrep].
  { eexists. rewrite (enqueue_replace _ _ Hflag Hrep).
    rewrite (remove_first_ext _ (supersedes item)); [done|].
    intros cur _. by rewrite supersedes_replace. }
  destruct (decide (firstToken item = "progress:")) as [Hprog|Hnprog].
  { destruct (contains item setvalueTag) eqn:Htag; eexists.
    - rewrite (enqueue_progress_setvalue _ _ Hflag Hprog Htag).
      rewrite (remove_first_ext _ (supersedes item)); [done|].
      intros cur _. by rewrite supersedes_progress, Htag.
    - rewrite (enqueue_append _ _ Hflag (deduplicate_progress_other _ _ Hprog Htag)).
      rewrite (remove_first_none (supersedes item)); [done|].
      apply Forall_forall. intros cur _. by rewrite supersedes_progress, Htag. }
  destruct (decide (firstToken item = "invalidateviewcursor:")) as [Hview|Hnview].
  { specialize (Hvp Hview).
    destruct (json_viewId (jsonString item)) as [viewId|] eqn:Hid; [|done].
    eexists. rewrite (enqueue_viewcursor _ _ _ Hflag Hview Hid Hqv).
    rewrite (remove_first_ext _ (supersedes item)); [done|].
    intros cur _. by rewrite (supersedes_view _ _ _ Hview Hid). }
  assert (plain_token (firstToken item)) as Hplain by (unfold plain_token; tauto).
  eexists. rewrite (enqueue_append _ _ Hflag (deduplicate_plain _ _ Hplain)).
  rewrite (remove_first_none (supersedes item)); [done|].
  apply Forall_forall. intros cur _. by apply supersedes_plain.
Qed.

(** X6 (enqueue implements the dedup table).  In a state the queue can
    reach, with the termination flag clear and [equalityHash] respecting
    [operator==], enqueuing a well-formed message erases the first queued
    message it supersedes by the table (same tile descriptor; same
    [invalidatecursor:] or [setpart:] token; both [progress:] with the
    setvalue tag; same view id), erases nothing when there is none, and
    appends the message. *)
Theorem enqueue_follows_dedup_table item (s : state) :
  TerminationFlag s = false ->
  hash_respects_eq ->
  hash_cached s ->
  Forall view_parseable (_queue s) ->
  parseable item ->
  exists s',
    enqueue item s
    = (s', Returns (S (length (remove_first (supersedes item) (_queue s)))))
    /\ _queue s' = remove_first (supersedes item) (_queue s) ++ [item]
    /\ (forall q1 old q2,
          _queue s = q1 ++ old :: q2 ->
          Forall (fun m => supersedes item m = false) q1 ->
          supersedes item old = true ->
          _queue s' = q1 ++ q2 ++ [item])
    /\ (Forall (fun m => supersedes item m = false) (_queue s) ->
        _queue s' = _queue s ++ [item]).
Proof.
  intros Hflag Hhash Hc Hqv Hitem.
  destruct (enqueue_supersedes item s Hflag Hhash Hc Hqv Hitem) as (s' & Hrun & Hq').
  exists s'. split; [done|]. split; [done|]. rewrite Hq'. split.
  - intros q1 old q2 -> Hq1 Hold.
    by rewrite (remove_first_middle _ _ _ _ Hq1 Hold), <- app_assoc.
  - intros Hnone. by rewrite remove_first_none.
Qed.

(** The table is euclidean: two messages superseded by a third are of the
    same target, so the later of the two supersedes the earlier. *)
Lemma supersedes_euclidean item x y :
  TileDesc_eq_euclidean ->
  supersedes item y = true -> supersedes item x = true ->
  supersedes x y = true.
Proof.
  intros Heuc. unfold supersedes at 1 2.
  destruct (decide (firstToken item = "tile:")) as [Htile|Hntile].
  { intros [Hy1 Hy2]%andb_true_iff [Hx1 Hx2]%andb_true_iff.
    apply bool_decide_eq_true in Hx1.
    destruct (TileDesc_parse (firstLine item)) as [d|] eqn:Hd; [|done].
    destruct (TileDesc_parse (firstLine y)) as [dy|] eqn:Hdy; [|done].
    destruct (TileDesc_parse (firstLine x)) as [dx|] eqn:Hdx; [|done].
    rewrite (supersedes_tile x dx y Hx1 Hdx). unfold same_tile.
    rewrite Hy1, Hdy. simpl. by apply (Heuc d). }
  destruct (decide (_ \/ _)) as [Hrep|Hnrep].
  { intros Hy Hx. apply bool_decide_eq_true in Hx, Hy.
    rewrite supersedes_replace by (by rewrite Hx).
    apply bool_decide_eq_true. congruence. }
  destruct (decide (firstToken item = "progress:")) as [Hprog|Hnprog].
  { rewrite Hprog.
    intros [[_ Hy1]%andb_true_iff Hy2]%andb_true_iff
           [[_ Hx1]%andb_true_iff Hx2]%andb_true_iff.
    apply bool_decide_eq_true in Hx1.
    rewrite (supersedes_progress x y Hx1), Hx2. unfold progress_match.
    by rewrite Hy1, Hy2. }
  destruct (decide (firstToken item = "invalidateviewcursor:")) as [Hview|Hnview];
    [|done].
  rewrite Hview.
  intros [Hy1 Hy2]%andb_true_iff [Hx1 Hx2]%andb_true_iff.
  apply bool_decide_eq_true in Hx1.
  destruct (json_viewId (jsonString item)) as [v|] eqn:Hv; [|done].
  destruct (json_viewId (jsonString y)) as [vy|] eqn:Hvy; [|done].
  destruct (json_viewId (jsonString x)) as [vx|] eqn:Hvx; [|done].
  rewrite (supersedes_view x vx y Hx1 Hvx). unfold view_match.
  rewrite Hy1, Hvy. simpl. apply bool_decide_eq_true.
  apply bool_decide_eq_true in Hy2, Hx2. congruence.
Qed.

Lemma Forall_remove_first (P : Item -> Prop) (f : Item -> bool) l :
  Forall P l -> Forall P (remove_first f l).
Proof.
  induction 1 as [|x l Hx Hl IH]; simpl; [done|].
  destruct (f x); [done|by constructor].
Qed.

Lemma non_interacting_snoc l item :
  non_interacting l ->
  Forall (fun x => supersedes item x = false) l ->
  non_interacting (l ++ [item]).
Proof.
  induction l as [|y l IH]; simpl; [done|].
  intros [Hy Hl] [Hiy Hil]%Forall_cons. split; [|by apply IH].
  apply Forall_app. split; [done|]. by apply Forall_singleton.
Qed.

Lemma non_interacting_supersede item q :
  TileDesc_eq_euclidean ->
  non_interacting q ->
  non_interacting (remove_first (supersedes item) q ++ [item]).
Proof.
  intros Heuc. induction q as [|y q IH]; simpl; [done|].
  intros [Hy Hq]. destruct (supersedes item y) eqn:Hiy.
  - apply non_interacting_snoc; [done|].
    rewrite Forall_forall in *. intros x Hx.
    destruct (supersedes item x) eqn:Hix; [|done].
    by rewrite <- (Hy x Hx), (supersedes_euclidean item x y).
  - simpl. split; [|by apply IH].
    apply Forall_app. split; [by apply Forall_remove_first|].
    by apply Forall_singleton.
Qed.

Lemma enqueue_coalesced item (s s' : state) r :
  hash_respects_eq -> TileDesc_eq_euclidean ->
  hash_cached s -> Forall view_parseable (_queue s) ->
  non_interacting (_queue s) ->
  enqueue item s = (s', r) ->
  non_interacting (_queue s').
Proof.
  intros Hhash Heuc Hc Hv Hni Hrun.
  destruct (enqueue_outcome _ _ _ _ Hrun) as [_ [->|(Hflag & n & -> & _)]]; [done|].
  pose proof (enqueue_returned_parseable _ _ _ _ Hflag Hrun) as Hitem.
  destruct (enqueue_supersedes item s Hflag Hhash Hc Hv Hitem) as (s1 & Hrun1 & Hq1).
  rewrite Hrun in Hrun1. injection Hrun1 as <- _. rewrite Hq1.
  by apply non_interacting_supersede.
Qed.

(** X7 (the queue stays coalesced).  With [equalityHash] respecting
    [operator==] and [operator==] relating descriptors equal to a common
    one, every run of calls from a coalesced reachable state (an empty queue
    is one), ended by an exception or not, leads to a queue in which no
    message supersedes an earlier one: at most one tile per descriptor, one
    message per [invalidatecursor:] and [setpart:] token, one tagged
    [progress:] message, one view cursor per view. *)
Theorem queue_stays_coalesced rs (s s' : state) r :
  hash_respects_eq -> TileDesc_eq_euclidean ->
  hash_cached s -> Forall view_parseable (_queue s) ->
  non_interacting (_queue s) ->
  serve_all rs s = (s', r) ->
  non_interacting (_queue s').
Proof.
  intros Hhash Heuc. revert s s' r.
  induction rs as [|req rs IH]; intros s s' r Hc Hv Hni; simpl.
  { by intros [= <- _]. }
  unfold bind at 1.
  destruct (serve req s) as [s1 r1] eqn:Hserve.
  assert (hash_cached s1 /\ Forall view_parseable (_queue s1)
          /\ non_interacting (_queue s1)) as (Hc1 & Hv1 & Hni1).
  { destruct req as [item| |]; simpl in Hserve; unfold bind in Hserve.
    - destruct (enqueue item s) as [s0 r0] eqn:Hrun.
      assert (s1 = s0) as -> by (destruct r0; by injection Hserve as <- _).
      split; [by eapply hash_cached_enqueue|].
      split; [by eapply view_parseable_enqueue|by eapply enqueue_coalesced].
    - destruct (dequeue s) as [s0 r0] eqn:Hrun.
      assert (s1 = s0) as -> by (destruct r0; by injection Hserve as <- _).
      split; [by eapply hash_cached_dequeue|].
      split; [by eapply view_parseable_dequeue|].
      revert Hrun. unfold dequeue, bind at 1, getTerminationFlag at 1.
      destruct (TerminationFlag s); [by intros [= <- _]|].
      unfold bind at 1, get_queue at 1.
      destruct (_queue s) as [|front rest] eqn:Hq;
        [intros [= <- _]; by rewrite Hq|].
      intros [= <- _]. simpl. by destruct Hni.
    - by injection Hserve as <- _. }
  destruct r1 as [a|e]; [|by intros [= <- _]].
  unfold bind.
  destruct (serve_all rs s1) as [s2 r2] eqn:Hrest.
  apply (IH _ _ _ Hc1 Hv1 Hni1) in Hrest.
  destruct r2; by intros [= <- _].
Qed.

(** ** The hash comparison of the tile branch *)

(** X8 (the hash comparison comes first).  On the tile branch a queued tile
    message whose cached hash differs from the hash of the incoming
    descriptor is rejected before its first line is parsed: when all queued
    tile messages are so, [enqueue] erases nothing, appends, and does not
    throw even if a queued first line does not parse. *)
Theorem tile_hash_precheck item newTile (s : state) :
  TerminationFlag s = false ->
  firstToken item = "tile:" ->
  TileDesc_parse (firstLine item) = Returns newTile ->
  item ∉ _queue s ->
  (forall cur, cur ∈ _queue s -> firstToken cur = "tile:" ->
               hashOf s cur <> equalityHash newTile) ->
  enqueue item s
  = (with_queue (with_hash s item (equalityHash newTile)) (_queue s ++ [item]),
     Returns (S (length (_queue s)))).
Proof.
  intros Hflag Htok Hparse Hfresh Hhash.
  assert (deduplicate item s
          = (with_hash s item (equalityHash newTile), Returns true)) as Hd.
  { unfold deduplicate. choose_branch.
    unfold bind at 1. unfold call at 1. rewrite Hparse.
    unfold bind at 1. unfold setHash at 1.
    fold (with_hash s item (equalityHash newTile)).
    set (s1 := with_hash s item (equalityHash newTile)).
    rewrite <- (bind_assoc_run _ _ _ s1).
    erewrite (bind_run _ _ s1); [reflexivity|].
    rewrite (find_erase_pure _ (fun _ => false)).
    - rewrite remove_first_none by (by apply Forall_forall).
      by rewrite with_queue_same.
    - intros cur Hcur. unfold bind, getHash, call, ret.
      destruct (firstTokenMatches cur "tile:") eqn:Htm; cbn [negb]; [|done].
      apply bool_decide_eq_true in Htm.
      assert ((equalityHash newTile =? hashOf s1 cur)%Z = false) as ->; [|done].
      apply Z.eqb_neq. simpl. rewrite fn_lookup_insert_ne by (by intros ->).
      intros Heq. by apply (Hhash cur Hcur Htm). }
  by rewrite (enqueue_returns _ _ _ Hflag Hd).
Qed.

(** ** What the calls leave alone *)

Lemma enqueue_frame item (s s' : state) r :
  enqueue item s = (s', r) ->
  TerminationFlag s' = TerminationFlag s
  /\ forall m, m <> item \/ firstToken item <> "tile:" ->
               hashOf s' m = hashOf s m.
Proof.
  intros Hrun. split; [by apply (enqueue_outcome _ _ _ _ Hrun)|].
  destruct (TerminationFlag s) eqn:Hflag.
  { rewrite (enqueue_terminated _ _ Hflag) in Hrun. by injection Hrun as <- _. }
  destruct (deduplicate item s) as [s1 r1] eqn:Hd.
  assert (hashOf s' = hashOf s1) as ->.
  { destruct r1 as [fresh|e].
    - destruct (deduplicate_result _ _ _ _ Hd) as [-> _].
      rewrite (enqueue_returns _ _ _ Hflag Hd) in Hrun. by injection Hrun as <- _.
    - rewrite (enqueue_throws _ _ _ _ Hflag Hd) in Hrun. by injection Hrun as <- _. }
  destruct (deduplicate_frame _ _ _ _ Hd)
    as (_ & _ & [[_ ->]|[Htile [[-> _]|(newTile & _ & ->)]]]); try done.
  intros m [Hm|Hm]; [|done]. by apply fn_lookup_insert_ne.
Qed.

Lemma dequeue_frame (s s' : state) r :
  dequeue s = (s', r) ->
  TerminationFlag s' = TerminationFlag s /\ hashOf s' = hashOf s.
Proof.
  unfold dequeue, bind at 1, getTerminationFlag at 1.
  destruct (TerminationFlag s) eqn:Hflag; [by intros [= <- _]|].
  unfold bind at 1, get_queue at 1.
  destruct (_queue s); [by intros [= <- _]|]. by intros [= <- _].
Qed.

(** X9 (what no call touches).  No run of calls, ended by an exception or
    not, changes the termination flag, and the only cached hashes it may
    write are those of the [tile:] messages handed to [enqueue]. *)
Theorem calls_frame rs (s s' : state) r :
  serve_all rs s = (s', r) ->
  TerminationFlag s' = TerminationFlag s
  /\ forall m, m ∉ enqueued rs \/ firstToken m <> "tile:" ->
               hashOf s' m = hashOf s m.
Proof.
  revert s s' r. induction rs as [|req rs IH]; intros s s' r; simpl.
  { by intros [= <- _]. }
  unfold bind at 1.
  destruct (serve req s) as [s1 r1] eqn:Hserve.
  assert (TerminationFlag s1 = TerminationFlag s
          /\ forall m, m ∉ enqueued (req :: rs) \/ firstToken m <> "tile:" ->
                       hashOf s1 m = hashOf s m) as [Hf1 Hh1].
  { destruct req as [item| |]; simpl in Hserve; unfold bind in Hserve.
    - destruct (enqueue item s) as [s0 r0] eqn:Hrun.
      assert (s1 = s0) as -> by (destruct r0; by injection Hserve as <- _).
      destruct (enqueue_frame _ _ _ _ Hrun) as [Hf Hh]. split; [done|].
      intros m Hm. apply Hh.
      change (enqueued (Enqueue item :: rs)) with (item :: enqueued rs) in Hm.
      destruct Hm as [Hm|Hm].
      + left. intros ->. apply Hm. apply elem_of_cons. auto.
      + destruct (decide (m = item)) as [->|Hne]; auto.
    - destruct (dequeue s) as [s0 r0] eqn:Hrun.
      assert (s1 = s0) as -> by (destruct r0; by injection Hserve as <- _).
      destruct (dequeue_frame _ _ _ Hrun) as [Hf Hh]. split; [done|].
      intros m _. by rewrite Hh.
    - by injection Hserve as <- _. }
  assert (forall s2 r2, serve_all rs s1 = (s2, r2) ->
            TerminationFlag s2 = TerminationFlag s
            /\ forall m, m ∉ enqueued (req :: rs) \/ firstToken m <> "tile:" ->
                         hashOf s2 m = hashOf s m) as Hrest.
  { intros s2 r2 Hrun. destruct (IH _ _ _ Hrun) as [Hf2 Hh2].
    split; [congruence|]. intros m Hm. rewrite <- (Hh1 m Hm). apply Hh2.
    destruct Hm as [Hm|Hm]; [left|by right]. intros Hin. apply Hm.
    destruct req; [apply elem_of_cons; auto|done..]. }
  destruct r1 as [a|e]; [|intros [= <- _]; auto].
  unfold bind.
  destruct (serve_all rs s1) as [s2 r2] eqn:Hrun.
  destruct r2; intros [= <- _]; by eapply Hrest.
Qed.

(** ** Draining the queue *)

Lemma dequeue_run n (s : state) :
  TerminationFlag s = false ->
  serve_all (replicate n Dequeue) s
  = (with_queue s (drop n (_queue s)),
     Returns (map (fun m => Dequeued (Some m)) (take n (_queue s))
              ++ replicate (n - length (_queue s)) (Dequeued None))).
Proof.
  revert s. induction n as [|n IH]; intros s Hflag.
  { rewrite drop_0, with_queue_same. done. }
  change (replicate (S n) Dequeue) with (@Dequeue Item :: replicate n Dequeue).
  cbn [serve_all serve]. unfold bind at 1 2.
  destruct (_queue s) as [|front rest] eqn:Hq.
  - rewrite (dequeue_empty _ Hflag Hq). unfold ret at 1, bind at 1.
    rewrite (IH s Hflag), Hq. unfold ret. simpl. rewrite drop_nil, take_nil.
    simpl. by rewrite Nat.sub_0_r.
  - rewrite (dequeue_front _ _ _ Hflag Hq). unfold ret at 1, bind at 1.
    rewrite (IH (with_queue s rest) Hflag). done.
Qed.

Lemma delivered_dequeued (l : list Item) :
  delivered (map (fun m => Dequeued (Some m)) l) = l.
Proof.
  induction l as [|x l IH]; [done|].
  change (x :: delivered (map (fun m => Dequeued (Some m)) l) = x :: l).
  by rewrite IH.
Qed.

Lemma delivered_none k : delivered (replicate k (@Dequeued Item None)) = [].
Proof. induction k as [|k IH]; [done|]. exact IH. Qed.

(** X10 (successive dequeues).  With the termination flag clear, [n]
    successive [dequeue] calls return the first [n] queued messages in queue
    order and leave the rest queued; once the queue is empty the remaining
    calls return no message. *)
Theorem dequeue_returns_queue_prefix n (s : state) :
  TerminationFlag s = false ->
  exists s' answers,
    serve_all (replicate n Dequeue) s = (s', Returns answers)
    /\ delivered answers = take n (_queue s)
    /\ _queue s' = drop n (_queue s)
    /\ length answers = n
    /\ (length (_queue s) <= n -> _queue s' = []
        /\ dequeue s' = (s', Returns None)).
Proof.
  intros Hflag. eexists _, _. split; [by apply dequeue_run|].
  split; [|split; [done|split]].
  - unfold delivered at 1. rewrite omap_app.
    fold (delivered (map (fun m => Dequeued (Some m)) (take n (_queue s)))).
    fold (delivered (replicate (n - length (_queue s)) (@Dequeued Item None))).
    by rewrite delivered_dequeued, delivered_none, app_nil_r.
  - rewrite length_app, length_map, length_take, length_replicate. lia.
  - intros Hn. simpl. rewrite drop_ge by done. split; [done|].
    by apply dequeue_empty.
Qed.

(** X11 (the returned length counts the deliveries).  With the termination
    flag clear, when [enqueue] returns [n], the next [n] [dequeue] calls
    return the queued messages in order, the incoming message last, and
    empty the queue. *)
Theorem enqueue_length_counts_deliveries item (s s1 : state) n :
  TerminationFlag s = false ->
  enqueue item s = (s1, Returns n) ->
  exists answers,
    serve_all (replicate n Dequeue) s1 = (with_queue s1 [], Returns answers)
    /\ delivered answers = _queue s1
    /\ last answers = Some (Dequeued (Some item)).
Proof.
  intros Hflag Hrun.
  destruct (enqueue_outcome _ _ _ _ Hrun) as [Hflag1 _].
  destruct (enqueue_result _ _ _ _ Hflag Hrun) as [-> Hshape].
  assert (exists q, _queue s1 = q ++ [item]) as [q Hq1].
  { destruct Hshape as [->|(q1 & old & q2 & _ & -> & _)]; [by eexists|].
    exists (q1 ++ q2). by rewrite app_assoc. }
  eexists. rewrite dequeue_run by congruence.
  rewrite drop_all, firstn_all, Nat.sub_diag. simpl. rewrite app_nil_r.
  split; [done|]. split.
  - apply delivered_dequeued.
  - rewrite Hq1, map_app. simpl. by rewrite last_snoc.
Qed.

(** ** Bursts of replaceable messages *)

(** A burst of messages that each erase the previous one. *)
Lemma burst_collapses (K : Item -> Prop) (f : Item -> bool) :
  (forall m (s : state), TerminationFlag s = false -> K m ->
     enqueue m s
     = (with_queue s (remove_first f (_queue s) ++ [m]),
        Returns (S (length (remove_first f (_queue s)))))) ->
  (forall m, K m -> f m = true) ->
  forall msgs m0 q (s : state),
    TerminationFlag s = false ->
    Forall K msgs -> Forall (fun x => f x = false) q -> K m0 ->
    serve_all (map Enqueue msgs) (with_queue s (q ++ [m0]))
    = (with_queue s (q ++ [default m0 (last msgs)]),
       Returns (replicate (length msgs) (QueueLength (S (length q))))).
Proof.
  intros Hrule Hf msgs. induction msgs as [|m msgs IH]; intros m0 q s Hflag HK Hq Hm0.
  { done. }
  apply Forall_cons in HK as [Hm HK].
  change (map Enqueue (m :: msgs)) with (Enqueue m :: map Enqueue msgs).
  erewrite serve_all_enqueue by (by apply Hrule).
  cbn [_queue with_queue].
  rewrite (remove_first_middle f q m0 [] Hq (Hf _ Hm0)), app_nil_r.
  change (with_queue (with_queue s (q ++ [m0])) (q ++ [m]))
    with (with_queue s (q ++ [m])).
  rewrite (IH m q s Hflag HK Hq Hm). simpl. do 3 f_equal.
  destruct msgs as [|m1 msgs] using rev_ind; [done|].
  by rewrite last_snoc, last_cons, last_snoc.
Qed.

(** X12 (bursts collapse to the last message).  With the termination flag
    clear and no message of the kind queued, a burst of any length of
    [invalidatecursor:] messages, of [setpart:] messages, or of [progress:]
    messages carrying the setvalue tag leaves the queue as it was with the
    last message of the burst appended: every call returns the same length,
    the queue does not grow with the burst. *)
Theorem burst_keeps_last_only m0 msgs (s : state) :
  TerminationFlag s = false ->
  (forall command,
      command = "invalidatecursor:" \/ command = "setpart:" ->
      Forall (fun m => firstToken m = command) (m0 :: msgs) ->
      Forall (fun m => firstToken m <> command) (_queue s) ->
      serve_all (map Enqueue (m0 :: msgs)) s
      = (with_queue s (_queue s ++ [default m0 (last msgs)]),
         Returns (replicate (S (length msgs)) (QueueLength (S (length (_queue s)))))))
  /\ (Forall (fun m => firstToken m = "progress:"
                       /\ contains m setvalueTag = true) (m0 :: msgs) ->
      Forall (fun m => progress_match m = false) (_queue s) ->
      serve_all (map Enqueue (m0 :: msgs)) s
      = (with_queue s (_queue s ++ [default m0 (last msgs)]),
         Returns (replicate (S (length msgs)) (QueueLength (S (length (_queue s))))))).
Proof.
  intros Hflag. split.
  - intros command Hcommand [Hm0 Hmsgs]%Forall_cons Hq.
    assert (Forall (fun x => token_match command x = false) (_queue s)) as Hq'.
    { eapply Forall_impl; [exact Hq|]. intros x. apply token_match_false. }
    change (map Enqueue (m0 :: msgs)) with (Enqueue m0 :: map Enqueue msgs).
    erewrite serve_all_enqueue
      by (apply enqueue_replace; [done|by rewrite Hm0]).
    rewrite Hm0, (remove_first_none _ _ Hq').
    rewrite (burst_collapses (fun m => firstToken m = command)
               (token_match command)); try done.
    + intros m s0 Hf Hm.
      rewrite (enqueue_replace _ _ Hf) by (by rewrite Hm). by rewrite Hm.
    + intros m. apply token_match_true.
  - intros [[Hm0 Ht0] Hmsgs]%Forall_cons Hq.
    change (map Enqueue (m0 :: msgs)) with (Enqueue m0 :: map Enqueue msgs).
    erewrite serve_all_enqueue by (by apply enqueue_progress_setvalue).
    rewrite (remove_first_none _ _ Hq).
    rewrite (burst_collapses
               (fun m => firstToken m = "progress:" /\ contains m setvalueTag = true)
               progress_match); try done.
    + intros m s0 Hf [Hm Ht]. by apply enqueue_progress_setvalue.
    + intros m [Hm Ht]. unfold progress_match, firstTokenMatches.
      by rewrite bool_decide_eq_true_2, Ht.
Qed.

(** ** The report of dumpState *)

Lemma dump_item_repeats_positive (st : dump_locals) item :
  Forall (fun l => l <> RepeatsLine 0) (os st) ->
  Forall (fun l => l <> RepeatsLine 0) (os (dump_item st item)).
Proof.
  intros Hos. unfold dump_item.
  destruct (bool_decide _ && negb _); simpl; [done|].
  destruct (0 <? repeats st)%nat eqn:Hrep; simpl.
  - apply Nat.ltb_lt in Hrep. rewrite !Forall_app. repeat split; [done|..].
    + apply Forall_singleton. intros [= Heq]. lia.
    + by apply Forall_singleton.
  - destruct (repeats st =? 0)%nat; [|done].
    apply Forall_app. split; [done|]. by apply Forall_singleton.
Qed.

Lemma dump_loop_repeats_positive (st0 : dump_locals) q :
  Forall (fun l => l <> RepeatsLine 0) (os st0) ->
  Forall (fun l => l <> RepeatsLine 0) (os (foldl dump_item st0 q)).
Proof.
  intros H0'. induction q as [|x q IH] using rev_ind; [done|].
  rewrite dump_loop_snoc. by apply dump_item_repeats_positive.
Qed.

(** X13 (the totals of the report).  The report of [dumpState] starts with
    the number of queued messages and ends with the sum of their payload
    sizes, whatever is collapsed in between; a repeats marker never counts
    zero messages; for an empty queue the report is these two lines. *)
Theorem dump_report_header_and_total (q : list Item) :
  head (dump_report q) = Some (QueueItems (length q))
  /\ last (dump_report q) = Some (QueueBytes (queue_bytes q))
  /\ Forall (fun l => l <> RepeatsLine 0) (dump_report q)
  /\ (q = [] -> dump_report q = [QueueItems 0; QueueBytes 0]).
Proof.
  destruct (dump_report_totals q) as (_ & Hhead & Hlast).
  split; [done|]. split; [done|]. split; [|by intros ->].
  unfold dump_report.
  set (st := foldl dump_item (mkDump [QueueItems (length q)] 0 "" 0) q).
  assert (Forall (fun l => l <> RepeatsLine 0) (os st)) as Hos.
  { apply dump_loop_repeats_positive. simpl. by apply Forall_singleton. }
  apply Forall_app. split; [|by apply Forall_singleton].
  destruct (0 <? repeats st)%nat eqn:Hrep; [|done].
  apply Nat.ltb_lt in Hrep. apply Forall_app. split; [done|].
  apply Forall_singleton. intros [= Heq]. lia.
Qed.

Lemma dump_loop_listing (st1 st2 : dump_locals) q :
  type_lines (os st1) = type_lines (os st2) ->
  lastStr st1 = lastStr st2 ->
  type_lines (os (foldl dump_item st1 q)) = type_lines (os (foldl dump_item st2 q))
  /\ lastStr (foldl dump_item st1 q) = lastStr (foldl dump_item st2 q).
Proof.
  intros Hos Hlast. induction q as [|x q [IH1 IH2]] using rev_ind; [done|].
  rewrite !dump_loop_snoc.
  destruct (dump_item_spec (foldl dump_item st1 q) x) as (-> & -> & _).
  destruct (dump_item_spec (foldl dump_item st2 q) x) as (-> & -> & _).
  by rewrite IH1, IH2.
Qed.

Lemma dump_loop_listing_prefix (st : dump_locals) q :
  exists rest,
    type_lines (os (foldl dump_item st q)) = type_lines (os st) ++ rest.
Proof.
  induction q as [|x q [rest IH]] using rev_ind.
  { exists []. by rewrite app_nil_r. }
  rewrite dump_loop_snoc.
  destruct (dump_item_spec (foldl dump_item st q) x) as (-> & _).
  rewrite IH, <- app_assoc. by eexists.
Qed.

(** X14 (the first message of the report).  The loop compares the first
    queued message with an empty [lastStr]: a first message that is text
    and whose abbreviated content is empty gets no line of its own, the
    listing is that of the rest of the queue; any other first message is
    listed first. *)
Theorem dump_report_first_message (m : Item) (rest : list Item) :
  (isBinary m = false -> abbreviation m = "" ->
   type_lines (dump_report (m :: rest)) = type_lines (dump_report rest))
  /\ (isBinary m = true \/ abbreviation m <> "" ->
      exists listing,
        type_lines (dump_report (m :: rest)) = entry m :: listing).
Proof.
  rewrite !dump_report_type_lines. cbn [foldl].
  destruct (dump_item_spec (mkDump [] 0 "" 0) m) as (Hos & Hlast & _).
  simpl in Hos, Hlast. split.
  - intros Hbin Habbr. apply dump_loop_listing.
    + rewrite Hos. unfold collapsed. rewrite Hbin, Habbr.
      by rewrite bool_decide_eq_true_2.
    + by rewrite Hlast, Habbr.
  - intros Hlisted.
    destruct (dump_loop_listing_prefix (dump_item (mkDump [] 0 "" 0) m) rest)
      as [listing ->].
    rewrite Hos. exists listing.
    assert (collapsed "" m = false) as ->; [|done].
    unfold collapsed. destruct Hlisted as [->|Hne]; [apply andb_false_r|].
    by rewrite bool_decide_eq_false_2.
Qed.

End Coverage.

(** * The properties on concrete queues *)

Import Wire.

Ltac by_evaluation := vm_compute; first [reflexivity | exact I | discriminate].

Ltac solve_parseable :=
  repeat match goal with
         | |- Forall _ [] => apply Forall_nil_2
         | |- Forall _ (_ :: _) => apply Forall_cons_2
         | |- parseable _ => split
         | |- tile_parseable _ =>
             let Htok := fresh in
             intros Htok; first [by_evaluation | vm_compute in Htok; discriminate]
         | |- view_parseable _ =>
             let Htok := fresh in
             intros Htok; first [by_evaluation | vm_compute in Htok; discriminate]
         | |- view_message _ => split
         | |- returned _ => by_evaluation
         | |- _ = _ => by_evaluation
         end.

Lemma hash32_respects_eq : @hash_respects_eq exn TileDesc externals.
Proof. intros a b Hab. apply bool_decide_eq_true in Hab. by subst. Qed.

Lemma two_tiles_hash_cached : hash_cached two_tiles.
Proof.
  apply (hash_cached_serve_all [Enqueue tileA1; Enqueue tileB] empty_queue _
           (serve_all [Enqueue tileA1; Enqueue tileB] empty_queue).2).
  - by apply hash_cached_empty.
  - unfold two_tiles. by destruct (serve_all _ empty_queue).
Qed.

(** C1 on a concrete queue: with [tileA1] and [tileB] queued, enqueuing
    [tileA2] (the descriptor of [tileA1], other image bytes) removes
    [tileA1] and leaves [tileB] followed by [tileA2]. *)
Lemma tile_supersession_witness :
  exists q1 old q2 s',
    _queue two_tiles = q1 ++ old :: q2
    /\ same_tile (mkTileDesc 0 0 31 3840) old = true
    /\ enqueue tileA2 two_tiles = (s', Returns (length (_queue two_tiles)))
    /\ _queue s' = q1 ++ q2 ++ [tileA2]
    /\ filter (fun cur => same_tile (mkTileDesc 0 0 31 3840) cur = true) (_queue s')
       = [tileA2]
    /\ last (_queue s') = Some tileA2.
Proof.
  apply (tile_supersession tileA2 (mkTileDesc 0 0 31 3840) two_tiles).
  - by_evaluation.
  - by_evaluation.
  - by_evaluation.
  - by_evaluation.
  - exact hash32_respects_eq.
  - exact two_tiles_hash_cached.
  - by_evaluation.
Defined.

(** C2 on a concrete run: a cursor message, a status message, two tiles of
    different descriptors and a view cursor, with dequeue and size calls in
    between, come out in the order they went in. *)
Lemma fifo_baseline_witness :
  exists s' answers,
    serve_all [Enqueue (cursor "1" "0,0"); Enqueue (status "2"); Dequeue;
               Enqueue tileA1; Size; Enqueue tileB;
               Enqueue (viewcursor "5" "1" "a"); Dequeue; Dequeue; Dequeue;
               Dequeue; Dequeue] empty_queue
    = (s', Returns answers)
    /\ delivered answers
       = [cursor "1" "0,0"; status "2"; tileA1; tileB; viewcursor "5" "1" "a"]
    /\ _queue s' = [].
Proof.
  destruct (fifo_baseline
              [Enqueue (cursor "1" "0,0"); Enqueue (status "2"); Dequeue;
               Enqueue tileA1; Size; Enqueue tileB;
               Enqueue (viewcursor "5" "1" "a"); Dequeue; Dequeue; Dequeue;
               Dequeue; Dequeue] empty_queue)
    as (s' & answers & Hrun & Hanswers & Hqueue & _).
  - by_evaluation.
  - simpl. solve_parseable.
  - simpl. repeat split; solve_parseable.
  - exists s', answers. split; [exact Hrun|].
    rewrite Hanswers, Hqueue. split; by_evaluation.
Defined.

(** C3 on a concrete queue: two tiles pending at shutdown; enqueue, dequeue
    and size calls change nothing and no message comes out. *)
Lemma shutdown_idempotence_witness :
  serve_all [Enqueue tileA2; Dequeue; Size; Enqueue tileBad; Dequeue] shut_down
  = (shut_down,
     Returns [QueueLength 2; Dequeued None; QueueLength 2; QueueLength 2;
              Dequeued None]).
Proof.
  exact (shutdown_idempotence
           [Enqueue tileA2; Dequeue; Size; Enqueue tileBad; Dequeue] shut_down
           eq_refl).
Defined.

(** C5 on a concrete queue: [tileA1] and [tileB] have different descriptors
    and the same position hash; enqueuing [tileB] after [tileA1] leaves both
    queued. *)
Lemma tile_collision_witness :
  hash32 (mkTileDesc 0 0 31 3840) = hash32 (mkTileDesc 0 1 0 3840)
  /\ hashOf one_tile tileA1 = hash32 (mkTileDesc 0 1 0 3840)
  /\ exists s',
      enqueue tileB one_tile = (s', Returns 2%nat)
      /\ _queue s' = [tileA1; tileB].
Proof.
  split; [by_evaluation|]. split; [by_evaluation|].
  destruct (tile_collision_non_interference tileB (mkTileDesc 0 1 0 3840) one_tile)
    as [_ Hall].
  - by_evaluation.
  - by_evaluation.
  - by_evaluation.
  - change (_queue one_tile) with [tileA1]. solve_parseable.
  - apply Hall. change (_queue one_tile) with [tileA1]. solve_parseable.
Defined.

(** C6 on concrete messages: setvalue 10, finish, setvalue 20. *)
Lemma progress_marker_witness :
  serve_all [Enqueue (progress_setvalue "1" "10"); Enqueue (progress_finish "2");
             Enqueue (progress_setvalue "3" "20")] empty_queue
  = (with_queue empty_queue [progress_finish "2"; progress_setvalue "3" "20"],
     Returns [QueueLength 1; QueueLength 2; QueueLength 2]).
Proof.
  apply (proj2 progress_marker_specificity empty_queue); by_evaluation.
Defined.

(** C7 on concrete messages: views 1, 2, 1, 1 leave the message of view 2
    and the last message of view 1. *)
Lemma view_cursor_witness :
  exists answers,
    serve_all (map Enqueue [viewcursor "1" "1" "a"; viewcursor "2" "2" "b";
                            viewcursor "3" "1" "c"; viewcursor "4" "1" "d"])
      empty_queue
    = (with_queue empty_queue [viewcursor "2" "2" "b"; viewcursor "4" "1" "d"],
       Returns answers).
Proof.
  destruct (proj2 view_cursor_isolation empty_queue
              [viewcursor "1" "1" "a"; viewcursor "2" "2" "b";
               viewcursor "3" "1" "c"; viewcursor "4" "1" "d"])
    as [answers Hrun].
  - by_evaluation.
  - by_evaluation.
  - solve_parseable.
  - exists answers. exact Hrun.
Defined.

(** C8 on concrete messages: cursor, cursor, status, cursor. *)
Lemma cursor_part_witness :
  serve_all [Enqueue (cursor "1" "0,0"); Enqueue (cursor "2" "0,1");
             Enqueue (status "3"); Enqueue (cursor "4" "0,2")] empty_queue
  = (with_queue empty_queue [status "3"; cursor "4" "0,2"],
     Returns [QueueLength 1; QueueLength 1; QueueLength 2; QueueLength 2]).
Proof.
  apply (proj2 cursor_part_replace_latest empty_queue); try by_evaluation.
  repeat split; by_evaluation.
Defined.


(** C10 on a concrete queue: a queued tile message that no longer parses
    makes the search throw after the hash of the incoming message was
    stored; the queue is as before. *)
Lemma enqueue_exception_witness :
  enqueue tileA2 (mkState false (fun _ => 4801%Z) [tileB; tileBad])
  = (with_hash (mkState false (fun _ => 4801%Z) [tileB; tileBad]) tileA2 4801%Z,
     Throws BadArgumentException)
  /\ _queue (with_hash (mkState false (fun _ => 4801%Z) [tileB; tileBad])
               tileA2 4801%Z)
     = [tileB; tileBad].
Proof.
  destruct (enqueue_exception_atomic tileA2 BadArgumentException
              (mkState false (fun _ => 4801%Z) [tileB; tileBad])
              (with_hash (mkState false (fun _ => 4801%Z) [tileB; tileBad])
                 tileA2 4801%Z))
    as (Hrun & Hq & _).
  - reflexivity.
  - reflexivity.
  - split; [exact Hrun|exact Hq].
Defined.

(** C4 as stated fails: a [tile:] message whose first line does not parse,
    and an [invalidateviewcursor:] message whose payload does not parse,
    make [enqueue] throw; no length is returned and the message is not
    appended. *)
Lemma malformed_tile_escapes :
  (enqueue tileBad one_tile).2 = Throws BadArgumentException
  /\ _queue (enqueue tileBad one_tile).1 = [tileA1]
  /\ (enqueue viewcursorBad one_tile).2 = Throws JSONException
  /\ _queue (enqueue viewcursorBad one_tile).1 = [tileA1].
Proof. repeat split; by_evaluation. Qed.

(** C4 as the code has it, on a concrete queue: a view cursor message with
    a broken payload. *)
Lemma malformed_payload_witness :
  enqueue viewcursorBad two_tiles = (two_tiles, Throws JSONException).
Proof.
  apply (malformed_payload_throws viewcursorBad JSONException two_tiles).
  - by_evaluation.
  - right. split; by_evaluation.
Defined.

(** * The further properties on concrete queues *)

Lemma wire_eq_euclidean : @TileDesc_eq_euclidean exn TileDesc externals.
Proof.
  intros a b c Hab Hac. apply bool_decide_eq_true in Hab, Hac.
  apply bool_decide_eq_true. congruence.
Qed.

Lemma empty_queue_hash_cached : hash_cached empty_queue.
Proof. by apply hash_cached_empty. Qed.

(** X1 on a concrete queue: [tileA2] after [tileA1] and [tileB]. *)
Lemma enqueue_appends_witness :
  2%nat = length (_queue after_tileA2)
  /\ last (_queue after_tileA2) = Some tileA2
  /\ (length (_queue two_tiles) <= 2 <= S (length (_queue two_tiles)))%nat
  /\ (_queue after_tileA2 = _queue two_tiles ++ [tileA2] \/
      exists q1 old q2,
        _queue two_tiles = q1 ++ old :: q2
        /\ _queue after_tileA2 = q1 ++ q2 ++ [tileA2]).
Proof.
  assert (enqueue tileA2 two_tiles = (after_tileA2, Returns 2%nat)) as Hrun.
  { unfold after_tileA2.
    rewrite (surjective_pairing (enqueue tileA2 two_tiles)) at 1.
    f_equal; by_evaluation. }
  exact (enqueue_appends_at_tail tileA2 two_tiles after_tileA2 2 eq_refl Hrun).
Defined.

(** X2 on a concrete queue: a cursor message enqueued into [mixed]. *)
Lemma enqueue_spares_witness :
  filter (fun m => firstToken m <> firstToken (cursor "6" "9,9"))
    (_queue (enqueue (cursor "6" "9,9") mixed).1)
  = filter (fun m => firstToken m <> firstToken (cursor "6" "9,9")) (_queue mixed).
Proof.
  apply (enqueue_spares_other_tokens (cursor "6" "9,9") mixed _
           (enqueue (cursor "6" "9,9") mixed).2).
  by destruct (enqueue (cursor "6" "9,9") mixed).
Defined.

(** X3 on a concrete run: three status messages among cursors and a tile. *)
Lemma plain_messages_witness :
  filter (fun m => plain_token (firstToken m))
    (_queue (serve_all (map Enqueue [status "1"; cursor "2" "0,0"; status "3";
                                     cursor "4" "0,1"; tileA1; status "5"])
               empty_queue).1)
  = [status "1"; status "3"; status "5"].
Proof.
  rewrite (plain_messages_kept_in_order
             [status "1"; cursor "2" "0,0"; status "3"; cursor "4" "0,1"; tileA1;
              status "5"] empty_queue _
             [QueueLength 1; QueueLength 2; QueueLength 3; QueueLength 3;
              QueueLength 4; QueueLength 5]); by_evaluation.
Defined.

(** X4 on a concrete run, the third call of which throws. *)
Lemma reachable_queue_witness :
  hash_cached (serve_all broken_run empty_queue).1
  /\ Forall parseable (_queue (serve_all broken_run empty_queue).1).
Proof.
  apply (reachable_queue_is_parsed broken_run empty_queue _
           (serve_all broken_run empty_queue).2).
  - exact empty_queue_hash_cached.
  - apply Forall_nil_2.
  - by destruct (serve_all broken_run empty_queue).
Defined.

(** X5 on a concrete queue: a malformed and a well-formed tile. *)
Lemma enqueue_returns_iff_witness :
  (returned (enqueue tileBad two_tiles).2 <-> parseable tileBad)
  /\ (returned (enqueue tileA2 two_tiles).2 <-> parseable tileA2).
Proof.
  split.
  - apply (enqueue_returns_iff_parseable tileBad two_tiles).
    + by_evaluation.
    + exact two_tiles_hash_cached.
    + change (_queue two_tiles) with [tileA1; tileB]. solve_parseable.
  - apply (enqueue_returns_iff_parseable tileA2 two_tiles).
    + by_evaluation.
    + exact two_tiles_hash_cached.
    + change (_queue two_tiles) with [tileA1; tileB]. solve_parseable.
Defined.

(** X6 on a concrete queue: [tileA2] supersedes [tileA1]. *)
Lemma dedup_table_witness :
  exists s',
    enqueue tileA2 two_tiles = (s', Returns 2%nat)
    /\ _queue s' = [tileB; tileA2].
Proof.
  destruct (enqueue_follows_dedup_table tileA2 two_tiles)
    as (s' & Hrun & Hq & _).
  - by_evaluation.
  - exact hash32_respects_eq.
  - exact two_tiles_hash_cached.
  - change (_queue two_tiles) with [tileA1; tileB]. solve_parseable.
  - solve_parseable.
  - exists s'. split; [exact Hrun|exact Hq].
Defined.

(** X7 on a concrete run with every kind of message. *)
Lemma queue_coalesced_witness :
  non_interacting (_queue (serve_all busy_run empty_queue).1).
Proof.
  apply (queue_stays_coalesced busy_run empty_queue _
           (serve_all busy_run empty_queue).2).
  - exact hash32_respects_eq.
  - exact wire_eq_euclidean.
  - exact empty_queue_hash_cached.
  - apply Forall_nil_2.
  - exact I.
  - by destruct (serve_all busy_run empty_queue).
Defined.

(** X8 on a concrete queue: the queued tiles have another hash than
    [tileA2]; one does not parse, one has the descriptor of [tileA2]. *)
Lemma tile_hash_precheck_witness :
  enqueue tileA2 stale
  = (with_queue (with_hash stale tileA2 4801%Z) [tileBad; tileA1; tileA2],
     Returns 3%nat).
Proof.
  assert (tileA2 ∉ _queue stale) as Hfresh
    by (apply (bool_decide_unpack (tileA2 ∉ _queue stale)); by_evaluation).
  assert (forall cur, cur ∈ _queue stale -> firstToken cur = "tile:" ->
                      hashOf stale cur <> equalityHash (mkTileDesc 0 0 31 3840))
    as Hstale by (intros cur _ _; by_evaluation).
  exact (tile_hash_precheck tileA2 (mkTileDesc 0 0 31 3840) stale
           eq_refl eq_refl eq_refl Hfresh Hstale).
Defined.

(** X9 on a concrete run: the flag and the hash of a message that was not
    enqueued. *)
Lemma calls_frame_witness :
  TerminationFlag (serve_all busy_run empty_queue).1 = false
  /\ hashOf (serve_all busy_run empty_queue).1 tileBad = 0%Z.
Proof.
  destruct (calls_frame busy_run empty_queue (serve_all busy_run empty_queue).1
              (serve_all busy_run empty_queue).2)
    as [Hflag Hhash].
  - by destruct (serve_all busy_run empty_queue).
  - split; [exact Hflag|]. apply (Hhash tileBad). left.
    apply (bool_decide_unpack (tileBad ∉ enqueued busy_run)). by_evaluation.
Defined.

(** X10 on a concrete queue: three dequeues from a queue of two. *)
Lemma dequeue_prefix_witness :
  exists s' answers,
    serve_all (replicate 3 Dequeue) two_tiles = (s', Returns answers)
    /\ delivered answers = take 3 (_queue two_tiles)
    /\ _queue s' = drop 3 (_queue two_tiles)
    /\ length answers = 3%nat
    /\ (length (_queue two_tiles) <= 3 ->
        _queue s' = [] /\ @dequeue Message exn s' = (s', Returns None)).
Proof.
  apply (dequeue_returns_queue_prefix 3 two_tiles). by_evaluation.
Defined.

(** X11 on a concrete queue: [enqueue] returned 2, the second dequeue
    returns the message. *)
Lemma enqueue_length_witness :
  exists answers,
    serve_all (replicate 2 Dequeue) after_tileA2
    = (with_queue after_tileA2 [], Returns answers)
    /\ delivered answers = _queue after_tileA2
    /\ last answers = Some (Dequeued (Some tileA2)).
Proof.
  assert (enqueue tileA2 two_tiles = (after_tileA2, Returns 2%nat)) as Hrun.
  { unfold after_tileA2.
    rewrite (surjective_pairing (enqueue tileA2 two_tiles)) at 1.
    f_equal; by_evaluation. }
  exact (enqueue_length_counts_deliveries tileA2 two_tiles after_tileA2 2
           eq_refl Hrun).
Defined.

(** X12 on a concrete burst: three cursor messages behind a status
    message. *)
Lemma burst_witness :
  serve_all (map Enqueue [cursor "1" "0,0"; cursor "2" "0,1"; cursor "3" "0,2"])
    one_status
  = (with_queue one_status [status "0"; cursor "3" "0,2"],
     Returns [QueueLength 2; QueueLength 2; QueueLength 2]).
Proof.
  apply (proj1 (burst_keeps_last_only (cursor "1" "0,0")
                  [cursor "2" "0,1"; cursor "3" "0,2"] one_status eq_refl)
           "invalidatecursor:").
  - by left.
  - solve_parseable.
  - change (_queue one_status) with [status "0"].
    apply Forall_cons_2; [by_evaluation|apply Forall_nil_2].
Defined.

(** X14 on a concrete queue: an empty text message ahead of a tile. *)
Lemma dump_first_message_witness :
  type_lines (dump_report [text "1" ""; tileA1]) = type_lines (dump_report [tileA1]).
Proof.
  apply (proj1 (dump_report_first_message (text "1" "") [tileA1])); by_evaluation.
Defined.

(** C2 as stated fails: a status message, a [tile:] message whose first
    line does not parse, and another status message supersede nothing, yet
    the enqueue of the tile throws and leaves the queue as it was; the
    calls that follow deliver the two status messages only, the tile is
    lost. *)
Lemma malformed_tile_breaks_fifo :
  non_interacting [status "1"; tileBad; status "3"]
  /\ (serve_all [Enqueue (status "1"); Enqueue tileBad; Enqueue (status "3")]
        empty_queue).2
     = Throws BadArgumentException
  /\ (enqueue tileBad (enqueue (status "1") empty_queue).1).2
     = Throws BadArgumentException
  /\ _queue (enqueue tileBad (enqueue (status "1") empty_queue).1).1
     = [status "1"]
  /\ (serve_all [Enqueue (status "3"); Dequeue; Dequeue; Dequeue]
        (enqueue tileBad (enqueue (status "1") empty_queue).1).1).2
     = Returns [QueueLength 2; Dequeued (Some (status "1"));
                Dequeued (Some (status "3")); Dequeued None].
Proof.
  split; [simpl; repeat split; solve_parseable|].
  repeat split; by_evaluation.
Qed.

